(** * Traffic light: message queue and phase cycling (src/TrafficLight.cpp)

    A shallow embedding of [MessageQueue<T>] and [TrafficLight] and the
    properties their description states about them.

    - Part I gives the model: the queue as the sequence its member functions
      manipulate, [waitForGreen] as an interaction tree over [receive()]
      calls, the cycle routine as a prologue and a loop body over the
      member and local variables, the actor as a small event system, and a
      finer interleaving model of one [receive()] against a producer, with
      the mutex and the condition variable made explicit.
    - Part II proves the properties. *)

From Stdlib Require Import List ZArith Lia Bool Arith.
From ITree Require Import ITree Interp.Traces.
Import ListNotations.
Import ITreeNotations.

Local Open Scope Z_scope.
Local Open Scope list_scope.

Set Implicit Arguments.

(* ===================================================================== *)
(** * Part I: the model                                                   *)
(* ===================================================================== *)

(** ** Phases *)

(** Modelled from the spec: the declaration of the enumeration
    (TrafficLight.h) is missing; the code names its members [red] and
    [green], and the description says there are exactly these two. *)
Inductive TrafficLightPhase : Type := red | green.

(** [operator==] on the enumeration. *)
Definition phase_eqb (a b : TrafficLightPhase) : bool :=
  match a, b with
  | red, red | green, green => true
  | _, _ => false
  end.

(** ** [MessageQueue<T>] *)

Module MessageQueue.
Section Model.
Context {T : Type}.

(** Modelled from the spec: the declaration of the member [_queue]
    (TrafficLight.h) is missing.  The description calls
    it a slot holding zero or one value; the member functions drive it
    through [empty], [clear], [push_back], [back] and [pop_back], so it is
    taken as a finite sequence whose back is the last element of the list.
    That it never holds two values is proved below, not assumed. *)
Definition t : Type := list T.

(** A default-constructed queue. *)
Definition create : t := [].

Definition empty (q : t) : bool :=
  match q with
  | [] => true
  | _ :: _ => false
  end.

Definition clear (q : t) : t := [].

Definition push_back (q : t) (x : T) : t := q ++ [x].

Fixpoint back (q : t) : option T :=
  match q with
  | [] => None
  | [x] => Some x
  | _ :: q' => back q'
  end.

Definition pop_back (q : t) : t := removelast q.

(** [send], lines 38-47, under the lock: [_queue.clear()] then
    [_queue.push_back(std::move(msg))].  The sleep of line 35 and the
    notification of line 47 leave the queue as it is; module [Handoff]
    below models them. *)
Definition send (msg : T) (q : t) : t := push_back (clear q) msg.

(** [receive], lines 16-25, under the lock.  [None] stands for a caller
    that stays blocked in [_condition.wait]: the predicate
    [!_queue.empty()] is false and the queue is left as it is.  Otherwise
    the result is the message taken from the back and the queue after
    [pop_back]. *)
Definition receive (q : t) : option (T * t) :=
  if empty q then None
  else match back q with
       | Some msg => Some (msg, pop_back q)
       | None => None
       end.

(** Calls on one queue, in the order in which their critical sections
    run. *)
Inductive call : Type :=
| CallSend (msg : T)
| CallReceive.

(** One call: the queue afterwards and what the call returned to its
    caller (nothing for [send], and nothing yet for a [receive] that is
    still blocked). *)
Definition apply_call (c : call) (q : t) : t * list T :=
  match c with
  | CallSend msg => (send msg q, [])
  | CallReceive =>
      match receive q with
      | Some (msg, q') => (q', [msg])
      | None => (q, [])
      end
  end.

Fixpoint run (cs : list call) (q : t) : t * list T :=
  match cs with
  | [] => (q, [])
  | c :: cs' =>
      let '(q1, out1) := apply_call c q in
      let '(q2, out2) := run cs' q1 in
      (q2, out1 ++ out2)
  end.

(** The messages handed to [send] in a sequence of calls. *)
Fixpoint sent (cs : list call) : list T :=
  match cs with
  | [] => []
  | CallSend msg :: cs' => msg :: sent cs'
  | CallReceive :: cs' => sent cs'
  end.

(** The states of a queue: whatever calls lead to from construction. *)
Definition state_after (cs : list call) : t := fst (run cs create).

End Model.
Arguments t : clear implicits.
Arguments call : clear implicits.
End MessageQueue.

(** ** The platform *)

(** What the routine takes from the C++ library and the system: the
    generator [std::mt19937] with its seeding constructor, the distribution
    [std::uniform_int_distribution<>(a, b)] applied to a generator (the
    value drawn and the generator afterwards), and the number of
    [system_clock] ticks in a millisecond. *)
Class Platform : Type := {
  Engine : Type;
  mt19937 : Z -> Engine;
  uniform_int_distribution : Z -> Z -> Engine -> Z * Engine;
  ticks_per_ms : Z
}.

(** The contract of [std::uniform_int_distribution]: a value drawn with
    parameters [a <= b] lies between them. *)
Definition draws_within_bounds (P : Platform) : Prop :=
  forall (a b : Z) (e : Engine),
    a <= b -> a <= fst (uniform_int_distribution a b e) <= b.

(** A platform to run the model on: a linear congruential generator, a
    distribution that reduces its output into the interval, and a clock
    in nanoseconds. *)
Definition sample_platform : Platform :=
  {| Engine := Z;
     mt19937 := fun seed => seed;
     uniform_int_distribution :=
       fun a b e => (a + e mod (b - a + 1), (1103515245 * e + 12345) mod 2147483648);
     ticks_per_ms := 1000000 |}.

(** ** [TrafficLight] *)

Section Actor.
Context {P : Platform}.

(** The local variables of one running [cycleThroughPhases]: the generator
    [eng], [cycleDuration] and [lastUpdate].  [cycleDuration] is a [double]
    that only ever holds the [int] the distribution returned, and
    [lastUpdate] a clock reading in ticks; both are integers here. *)
Record CycleLocals : Type := {
  eng : Engine;
  cycleDuration : Z;
  lastUpdate : Z
}.

(** Modelled from the spec: the declaration of the class (TrafficLight.h)
    is missing.  These are the members the code uses:
    [_currentPhase], [_messageQueue], and the inherited [threads], each
    thread standing for the routine it runs. *)
Record TrafficLight : Type := {
  _currentPhase : TrafficLightPhase;
  _messageQueue : MessageQueue.t TrafficLightPhase;
  threads : list CycleLocals
}.

Definition set_currentPhase (p : TrafficLightPhase) (self : TrafficLight) : TrafficLight :=
  {| _currentPhase := p;
     _messageQueue := _messageQueue self;
     threads := threads self |}.

Definition set_messageQueue (q : MessageQueue.t TrafficLightPhase) (self : TrafficLight) : TrafficLight :=
  {| _currentPhase := _currentPhase self;
     _messageQueue := q;
     threads := threads self |}.

Definition set_threads (ts : list CycleLocals) (self : TrafficLight) : TrafficLight :=
  {| _currentPhase := _currentPhase self;
     _messageQueue := _messageQueue self;
     threads := ts |}.

(** The constructor, lines 52-55; the queue and the thread list are
    default-constructed. *)
Definition TrafficLight_TrafficLight : TrafficLight :=
  {| _currentPhase := red;
     _messageQueue := MessageQueue.create;
     threads := [] |}.

(** Lines 70-73. *)
Definition getCurrentPhase (self : TrafficLight) : TrafficLightPhase :=
  _currentPhase self.

(** *** The cycle routine, lines 83-125 *)

(** Lines 91-98, before the loop: the generator is seeded with the value
    [rd] of the random device, one duration is drawn from [4000, 6000], and
    the stop watch is set to the clock reading [now]. *)
Definition cycleThroughPhases_prologue (rd now : Z) : CycleLocals :=
  let eng0 := mt19937 rd in
  let '(drawn, eng1) := uniform_int_distribution 4000 6000 eng0 in
  {| eng := eng1; cycleDuration := drawn; lastUpdate := now |}.

(** Line 107: the difference of two clock readings cast to milliseconds,
    rounding toward zero. *)
Definition timeSinceLastUpdate (now : Z) (l : CycleLocals) : Z :=
  Z.quot (now - lastUpdate l) ticks_per_ms.

(** Lines 111-118. *)
Definition toggled (p : TrafficLightPhase) : TrafficLightPhase :=
  if phase_eqb p red then green
  else if phase_eqb p green then red
  else p.

(** Lines 104-123, one turn of the loop.  [now_check] is the clock reading
    of line 107 and [now_reset] the one of line 122, read only when a
    transition happens.  The result is the actor, the locals, and the
    messages handed to [send] during the turn.  [send] takes
    [_currentPhase] by reference and stores it under the lock; the member
    is written by this routine only, so what is stored is its value after
    the assignment of line 113 or 117. *)
Definition cycleThroughPhases_iteration (now_check now_reset : Z)
    (self : TrafficLight) (l : CycleLocals)
  : TrafficLight * CycleLocals * list TrafficLightPhase :=
  if timeSinceLastUpdate now_check l >=? cycleDuration l then
    let self1 := set_currentPhase (toggled (_currentPhase self)) self in
    let msg := _currentPhase self1 in
    let self2 := set_messageQueue (MessageQueue.send msg (_messageQueue self1)) self1 in
    (self2,
     {| eng := eng l; cycleDuration := cycleDuration l; lastUpdate := now_reset |},
     [msg])
  else (self, l, []).

(** What happens while the loop runs: a turn of the loop, or, between two
    turns, a thread blocked in [receive()] taking the message. *)
Inductive cycle_step : Type :=
| Turn (now_check now_reset : Z)
| Taken.

Definition take_message (self : TrafficLight) : TrafficLight * list TrafficLightPhase :=
  match MessageQueue.receive (_messageQueue self) with
  | Some (msg, q') => (set_messageQueue q' self, [msg])
  | None => (self, [])
  end.

(** The loop of line 101 over finitely many steps: the actor and the
    locals afterwards, and the messages published, oldest first. *)
Fixpoint cycleThroughPhases_loop (steps : list cycle_step)
    (self : TrafficLight) (l : CycleLocals)
  : TrafficLight * CycleLocals * list TrafficLightPhase :=
  match steps with
  | [] => (self, l, [])
  | Turn now_check now_reset :: steps' =>
      let '(self1, l1, out1) := cycleThroughPhases_iteration now_check now_reset self l in
      let '(self2, l2, out2) := cycleThroughPhases_loop steps' self1 l1 in
      (self2, l2, out1 ++ out2)
  | Taken :: steps' =>
      cycleThroughPhases_loop steps' (fst (take_message self)) l
  end.

(** The routine on an actor: prologue, then the loop. *)
Definition cycleThroughPhases (rd now : Z) (steps : list cycle_step)
    (self : TrafficLight)
  : TrafficLight * CycleLocals * list TrafficLightPhase :=
  cycleThroughPhases_loop steps self (cycleThroughPhases_prologue rd now).

(** The parts of the routine's result. *)
Definition actor_of (r : TrafficLight * CycleLocals * list TrafficLightPhase) : TrafficLight :=
  fst (fst r).

Definition locals_of (r : TrafficLight * CycleLocals * list TrafficLightPhase) : CycleLocals :=
  snd (fst r).

Definition published_of (r : TrafficLight * CycleLocals * list TrafficLightPhase)
  : list TrafficLightPhase :=
  snd r.

(** The alternating sequence of [n] phases that starts with [p]. *)
Fixpoint alternating (p : TrafficLightPhase) (n : nat) : list TrafficLightPhase :=
  match n with
  | O => []
  | S n' => p :: alternating (toggled p) n'
  end.

(** No two neighbours of the list are equal. *)
Fixpoint no_repeat (l : list TrafficLightPhase) : bool :=
  match l with
  | a :: ((b :: _) as l') => negb (phase_eqb a b) && no_repeat l'
  | _ => true
  end.

(** *** The actor as seen by its callers *)

(** What can happen to an actor: a call of [getCurrentPhase()]; a call of
    [simulate()], lines 75-80, which starts a thread on the routine (its
    prologue touches no member, so it is run on the spot, with the values
    [rd] and [now] it will read); a turn of the loop of the [k]-th thread;
    a [receive()] issued from [waitForGreen()].  A turn is taken as one
    step, which is exact as long as at most one thread was started. *)
Inductive event : Type :=
| EvGetCurrentPhase
| EvSimulate (rd now : Z)
| EvTurn (k : nat) (now_check now_reset : Z)
| EvReceive.

(** What a step lets the outside see. *)
Inductive observation : Type :=
| ObsPhase (p : TrafficLightPhase)
| ObsSent (p : TrafficLightPhase)
| ObsReceived (p : TrafficLightPhase).

Fixpoint replace_nth {A : Type} (k : nat) (x : A) (l : list A) : list A :=
  match l, k with
  | [], _ => []
  | _ :: l', O => x :: l'
  | a :: l', S k' => a :: replace_nth k' x l'
  end.

Definition simulate (rd now : Z) (self : TrafficLight) : TrafficLight :=
  set_threads (threads self ++ [cycleThroughPhases_prologue rd now]) self.

Definition actor_step (e : event) (self : TrafficLight)
  : TrafficLight * list observation :=
  match e with
  | EvGetCurrentPhase => (self, [ObsPhase (getCurrentPhase self)])
  | EvSimulate rd now => (simulate rd now self, [])
  | EvTurn k now_check now_reset =>
      match nth_error (threads self) k with
      | Some l =>
          let '(self1, l1, out) := cycleThroughPhases_iteration now_check now_reset self l in
          (set_threads (replace_nth k l1 (threads self1)) self1, map ObsSent out)
      | None => (self, [])
      end
  | EvReceive =>
      let '(self1, out) := take_message self in
      (self1, map ObsReceived out)
  end.

Fixpoint actor_run (es : list event) (self : TrafficLight)
  : TrafficLight * list observation :=
  match es with
  | [] => (self, [])
  | e :: es' =>
      let '(self1, out1) := actor_step e self in
      let '(self2, out2) := actor_run es' self1 in
      (self2, out1 ++ out2)
  end.

Definition is_simulate (e : event) : bool :=
  match e with
  | EvSimulate _ _ => true
  | _ => false
  end.

(** The queue holds nothing, or the current phase. *)
Definition queue_follows_phase (self : TrafficLight) : Prop :=
  _messageQueue self = [] \/ _messageQueue self = [_currentPhase self].

(** No thread runs the routine and the phase is [red]. *)
Definition not_started (self : TrafficLight) : Prop :=
  threads self = [] /\ _currentPhase self = red.

End Actor.

(** *** [waitForGreen], lines 57-68 *)

(** The one thing [waitForGreen] asks of its environment: a call of
    [_messageQueue.receive()], answered with the message received. *)
Variant queueE : Type -> Type :=
| Receive : queueE TrafficLightPhase.

(** The loop of line 63: receive, return if the message is [green], go
    round again otherwise. *)
Definition waitForGreen : itree queueE unit :=
  ITree.iter
    (fun _ : unit =>
       msg <- ITree.trigger Receive ;;
       if phase_eqb msg green then Ret (inr tt) else Ret (inl tt))%itree
    tt.

(** The trace in which the calls of [receive()] return the messages [msgs]
    in turn, followed by [rest]. *)
Fixpoint received (msgs : list TrafficLightPhase) (rest : @trace queueE unit)
  : @trace queueE unit :=
  match msgs with
  | [] => rest
  | msg :: msgs' => TEventResponse Receive msg (received msgs' rest)
  end.

(** The answer to [Receive] on a queue: [MessageQueue.receive]. *)
Definition on_queue {X : Type} (e : queueE X)
    (q : MessageQueue.t TrafficLightPhase)
  : option (X * MessageQueue.t TrafficLightPhase) :=
  match e with
  | Receive => MessageQueue.receive q
  end.

(** [Receive] is the only event: an answer to it is a message. *)
Definition answer {X : Type} (e : queueE X) (msg : TrafficLightPhase) : X :=
  match e with
  | Receive => msg
  end.

Definition message_of {X : Type} (e : queueE X) : X -> TrafficLightPhase :=
  match e with
  | Receive => fun x => x
  end.

Inductive wait_result : Type :=
| Returned
| Blocked
| Running.

(** A waiter run alone against a queue, for at most [fuel] nodes of its
    tree: it returns, or blocks in [receive()] on an empty queue. *)
Fixpoint run_waiter (fuel : nat) (w : itree queueE unit)
    (q : MessageQueue.t TrafficLightPhase)
  : wait_result * MessageQueue.t TrafficLightPhase :=
  match fuel with
  | O => (Running, q)
  | S fuel' =>
      match observe w with
      | RetF _ => (Returned, q)
      | TauF w' => run_waiter fuel' w' q
      | VisF e k =>
          match on_queue e q with
          | Some (x, q') => run_waiter fuel' (k x) q'
          | None => (Blocked, q)
          end
      end
  end.

(** ** One [receive()] against a producer, instruction by instruction *)

(** The consumer runs [receive()] once; the producer runs [send(msg)] for
    each message of a list, in order.  The mutex and the condition variable
    are explicit: [_condition.wait(uLock, pred)] is the loop
    [while (!pred()) wait(uLock)], a plain [wait] releases the lock and
    suspends the caller in one step, and a suspended caller is woken by a
    notification or by a spurious wakeup, after which it has to take the
    lock again before it looks at the queue. *)
Module Handoff.
Section Model.
Context {T : Type}.

Inductive owner : Type := Producer | Consumer.

(** Where the consumer stands in [receive()]. *)
Inductive receiver : Type :=
| RcvEntry                (* called; the lock of line 16 is not taken yet *)
| RcvLocked               (* holds the lock, about to test the predicate of line 19 *)
| RcvWaiting              (* suspended inside [wait], lock released *)
| RcvWoken                (* woken inside [wait], lock not yet taken again *)
| RcvReturned (msg : T).  (* lines 22-25 done, lock released *)

(** Where the producer stands in [send(msg)]. *)
Inductive sender : Type :=
| SndIdle                 (* outside [send], or in the sleep of line 35 *)
| SndLocked (msg : T)     (* line 38 done *)
| SndCleared (msg : T)    (* line 41 done *)
| SndPushed (msg : T)     (* line 44 done *)
| SndNotified (msg : T).  (* line 47 done; the lock goes at the end of the scope *)

Record state : Type := {
  queue : MessageQueue.t T;
  mutex : option owner;
  rcv : receiver;
  snd_pc : sender;
  pending : list T;       (* messages the producer has still to send *)
  completed : list T      (* messages whose [send] has returned *)
}.

Definition initial (msgs : list T) : state :=
  {| queue := MessageQueue.create;
     mutex := None;
     rcv := RcvEntry;
     snd_pc := SndIdle;
     pending := msgs;
     completed := [] |}.

Definition is_free (m : option owner) : bool :=
  match m with
  | None => true
  | Some _ => false
  end.

(** [_condition.notify_one()]: a suspended consumer is woken. *)
Definition notify_one (r : receiver) : receiver :=
  match r with
  | RcvWaiting => RcvWoken
  | _ => r
  end.

(** The next instruction of the consumer, when it can run. *)
Definition consume_step (s : state) : option state :=
  match rcv s with
  | RcvEntry | RcvWoken =>
      if is_free (mutex s) then
        Some {| queue := queue s; mutex := Some Consumer; rcv := RcvLocked;
                snd_pc := snd_pc s; pending := pending s; completed := completed s |}
      else None
  | RcvLocked =>
      match MessageQueue.receive (queue s) with
      | None =>
          Some {| queue := queue s; mutex := None; rcv := RcvWaiting;
                  snd_pc := snd_pc s; pending := pending s; completed := completed s |}
      | Some (msg, q') =>
          Some {| queue := q'; mutex := None; rcv := RcvReturned msg;
                  snd_pc := snd_pc s; pending := pending s; completed := completed s |}
      end
  | RcvWaiting => None
  | RcvReturned _ => None
  end.

(** The next instruction of the producer, when it can run. *)
Definition produce_step (s : state) : option state :=
  match snd_pc s with
  | SndIdle =>
      match pending s with
      | [] => None
      | msg :: rest =>
          if is_free (mutex s) then
            Some {| queue := queue s; mutex := Some Producer; rcv := rcv s;
                    snd_pc := SndLocked msg; pending := rest; completed := completed s |}
          else None
      end
  | SndLocked msg =>
      Some {| queue := MessageQueue.clear (queue s); mutex := mutex s; rcv := rcv s;
              snd_pc := SndCleared msg; pending := pending s; completed := completed s |}
  | SndCleared msg =>
      Some {| queue := MessageQueue.push_back (queue s) msg; mutex := mutex s; rcv := rcv s;
              snd_pc := SndPushed msg; pending := pending s; completed := completed s |}
  | SndPushed msg =>
      Some {| queue := queue s; mutex := mutex s; rcv := notify_one (rcv s);
              snd_pc := SndNotified msg; pending := pending s; completed := completed s |}
  | SndNotified msg =>
      Some {| queue := queue s; mutex := None; rcv := rcv s;
              snd_pc := SndIdle; pending := pending s; completed := completed s ++ [msg] |}
  end.

(** A spurious wakeup of a suspended consumer. *)
Definition spurious_wakeup (s : state) : option state :=
  match rcv s with
  | RcvWaiting =>
      Some {| queue := queue s; mutex := mutex s; rcv := RcvWoken;
              snd_pc := snd_pc s; pending := pending s; completed := completed s |}
  | _ => None
  end.

(** What the scheduler, or the system, may do next. *)
Inductive action : Type := Consume | Produce | Spurious.

Definition step (a : action) (s : state) : option state :=
  match a with
  | Consume => consume_step s
  | Produce => produce_step s
  | Spurious => spurious_wakeup s
  end.

(** An action that cannot run leaves everything as it is. *)
Definition perform (a : action) (s : state) : state :=
  match step a s with
  | Some s' => s'
  | None => s
  end.

Definition run (sched : list action) (s : state) : state :=
  fold_left (fun s a => perform a s) sched s.

Definition has_returned (s : state) : bool :=
  match rcv s with
  | RcvReturned _ => true
  | _ => false
  end.

(** Instructions left to the producer, and a bound on the instructions
    both threads can still run when no spurious wakeup occurs. *)
Definition sender_left (s : state) : nat :=
  (match snd_pc s with
   | SndIdle => 0
   | SndLocked _ => 4
   | SndCleared _ => 3
   | SndPushed _ => 2
   | SndNotified _ => 1
   end + 5 * length (pending s))%nat.

Definition receiver_rank (r : receiver) : nat :=
  match r with
  | RcvEntry | RcvWoken => 2
  | RcvLocked => 1
  | RcvWaiting | RcvReturned _ => 0
  end%nat.

Definition work_left (s : state) : nat :=
  (receiver_rank (rcv s) + 3 * sender_left s)%nat.

(** *** What holds in every state the two threads reach *)

(** The message a [send] in progress carries. *)
Definition in_send (p : sender) : list T :=
  match p with
  | SndIdle => []
  | SndLocked m | SndCleared m | SndPushed m | SndNotified m => [m]
  end.

(** Who holds the mutex, read off the two program points. *)
Definition holder (s : state) : option owner :=
  match rcv s, snd_pc s with
  | RcvLocked, _ => Some Consumer
  | _, SndIdle => None
  | _, _ => Some Producer
  end.

Definition latest (l : list T) : list T :=
  match MessageQueue.back l with
  | Some m => [m]
  | None => []
  end.

(** What the queue holds while [receive()] has not returned. *)
Definition expected_queue (s : state) : list T :=
  match snd_pc s with
  | SndIdle | SndLocked _ => latest (completed s)
  | SndCleared _ => []
  | SndPushed m | SndNotified m => [m]
  end.

Record invariant (msgs : list T) (s : state) : Prop := {
  inv_script : completed s ++ in_send (snd_pc s) ++ pending s = msgs;
  inv_mutex : mutex s = holder s;
  inv_exclusive : rcv s = RcvLocked -> snd_pc s = SndIdle;
  inv_wakeup : rcv s = RcvWaiting -> queue s = [] \/ exists m, snd_pc s = SndPushed m;
  inv_queue : has_returned s = false -> queue s = expected_queue s;
  inv_returned : forall v, rcv s = RcvReturned v -> In v (completed s)
}.

End Model.
Arguments state : clear implicits.
End Handoff.

(** ** Vocabulary for the further properties of Part III *)

(** [l1] is [l2] with some elements left out: same order, none twice. *)
Inductive subsequence {A : Type} : list A -> list A -> Prop :=
| subsequence_nil (l : list A) : subsequence [] l
| subsequence_skip (x : A) (l1 l2 : list A) :
    subsequence l1 l2 -> subsequence l1 (x :: l2)
| subsequence_take (x : A) (l1 l2 : list A) :
    subsequence l1 l2 -> subsequence (x :: l1) (x :: l2).

(** In the interleaving model: the queue holds at most one message, and
    none between the producer's [clear] and its [push_back]. *)
Definition slot_ok {T : Type} (s : Handoff.state T) : Prop :=
  (length (Handoff.queue s) <= 1)%nat
  /\ (forall m, Handoff.snd_pc s = Handoff.SndCleared m -> Handoff.queue s = []).

(** The calls of [simulate()] among some events. *)
Definition simulate_calls (es : list event) : nat :=
  length (filter is_simulate es).

(* ===================================================================== *)
(** * Part II: properties                                                 *)
(* ===================================================================== *)

(** ** The queue *)

Module QueueFacts.
Import MessageQueue.
Section Facts.
Context {T : Type}.
Implicit Types (q : MessageQueue.t T) (cs : list (call T)) (msg : T).

Lemma send_is_singleton msg q : send msg q = [msg].
Proof. reflexivity. Qed.

Lemma receive_singleton msg : receive [msg] = Some (msg, []).
Proof. reflexivity. Qed.

Lemma receive_empty : receive (@create T) = None.
Proof. reflexivity. Qed.

Lemma back_push_back q msg : back (push_back q msg) = Some msg.
Proof.
  unfold push_back. induction q as [|a q IH]; [reflexivity|].
  cbn [app back]. destruct (q ++ [msg]) eqn:E; [|exact IH].
  destruct q; discriminate.
Qed.

Lemma pop_back_push_back q msg : pop_back (push_back q msg) = q.
Proof. apply removelast_last. Qed.

(** On any sequence, [receive] takes the last element. *)
Lemma receive_push_back q msg : receive (push_back q msg) = Some (msg, q).
Proof.
  unfold receive. rewrite back_push_back, pop_back_push_back.
  unfold push_back. destruct q; reflexivity.
Qed.

Lemma at_most_one_cases q : (length q <= 1)%nat -> q = [] \/ exists msg, q = [msg].
Proof.
  destruct q as [|a [|b q]]; cbn; intros H; [now left|right; now exists a|lia].
Qed.

Lemma apply_call_at_most_one (c : call T) q :
  (length q <= 1)%nat -> (length (fst (apply_call c q)) <= 1)%nat.
Proof.
  intros H. destruct c as [msg|]; cbn; [lia|].
  destruct (at_most_one_cases q H) as [->|[msg ->]]; cbn; lia.
Qed.

Lemma run_cons (c : call T) cs q :
  run (c :: cs) q =
  (fst (run cs (fst (apply_call c q))),
   snd (apply_call c q) ++ snd (run cs (fst (apply_call c q)))).
Proof.
  cbn [run]. destruct (apply_call c q) as [q1 out1]. cbn [fst snd].
  destruct (run cs q1); reflexivity.
Qed.

Lemma run_at_most_one cs : forall q,
  (length q <= 1)%nat -> (length (fst (run cs q)) <= 1)%nat.
Proof.
  induction cs as [|c cs IH]; intros q H; [exact H|].
  rewrite run_cons. cbn [fst]. apply IH, apply_call_at_most_one, H.
Qed.

Lemma state_after_at_most_one cs : (length (state_after cs) <= 1)%nat.
Proof. apply run_at_most_one. cbn. lia. Qed.

Lemma run_app cs1 cs2 q :
  run (cs1 ++ cs2) q =
  (fst (run cs2 (fst (run cs1 q))),
   snd (run cs1 q) ++ snd (run cs2 (fst (run cs1 q)))).
Proof.
  revert q. induction cs1 as [|c cs1 IH]; intros q.
  - cbn. destruct (run cs2 q); reflexivity.
  - rewrite <- app_comm_cons, !run_cons, IH. cbn [fst snd].
    now rewrite app_assoc.
Qed.

(** A [receive] that returns took the last element. *)
Lemma receive_some_inv q msg q' :
  receive q = Some (msg, q') -> q = push_back q' msg.
Proof.
  unfold receive. destruct (empty q) eqn:Ee; [discriminate|].
  destruct (back q) as [m|] eqn:Eb; [|discriminate].
  intros E. injection E as <- <-. unfold push_back, pop_back.
  destruct q as [|a q]; [discriminate|]. clear Ee.
  revert a Eb. induction q as [|b q IHq]; intros a Eb.
  - cbn in *. congruence.
  - change (back (b :: q) = Some m) in Eb.
    change (a :: b :: q = a :: (removelast (b :: q) ++ [m])).
    f_equal. apply IHq, Eb.
Qed.

(** Whatever a sequence of calls returns was in the queue at its start or
    was sent during it. *)
Lemma run_returns_held_or_sent cs : forall q,
  incl (snd (run cs q)) (q ++ sent cs).
Proof.
  induction cs as [|c cs IH]; intros q.
  - intros x [].
  - rewrite run_cons. cbn [snd]. intros x Hx. apply in_app_or in Hx.
    destruct c as [msg|].
    + cbn [apply_call fst snd sent] in *. destruct Hx as [[]|Hx].
      apply IH in Hx. rewrite send_is_singleton in Hx.
      apply in_or_app. right. exact Hx.
    + cbn [apply_call sent] in *.
      destruct (receive q) as [[msg q']|] eqn:E; cbn [fst snd] in *.
      * apply receive_some_inv in E. subst q. unfold push_back.
        destruct Hx as [[<-|[]]|Hx].
        -- apply in_or_app. left. apply in_or_app. right. now left.
        -- apply IH in Hx. apply in_app_or in Hx. apply in_or_app.
           destruct Hx as [Hx|Hx]; [left|now right].
           apply in_or_app. now left.
      * destruct Hx as [[]|Hx]. apply IH, Hx.
Qed.

(** C1. From any queue, [send(A)] followed by [send(B)] with no [receive]
    in between makes the next [receive()] return [B]; a further [receive()]
    finds the queue empty, so [B] is returned once.  What any later calls
    return is what they would return had [B] been sent into a fresh queue:
    it depends neither on [A] nor on what the queue held, and every message
    returned later is [B] or was sent later.  In particular [A] is returned
    by no later [receive()] unless it is [B] or is sent again. *)
Theorem send_twice_latest_wins (q : MessageQueue.t T) (A B : T) (later : list (call T)) :
  receive (send B (send A q)) = Some (B, [])
  /\ run [CallReceive; CallReceive] (send B (send A q)) = ([], [B])
  /\ run later (send B (send A q)) = run later (send B create)
  /\ incl (snd (run later (send B (send A q)))) (B :: sent later)
  /\ (~ In A (B :: sent later) -> ~ In A (snd (run later (send B (send A q))))).
Proof.
  rewrite !send_is_singleton.
  assert (Hincl : incl (snd (run later [B])) (B :: sent later))
    by apply (run_returns_held_or_sent later [B]).
  repeat split; try reflexivity; [exact Hincl|].
  intros HA Hin. apply HA, Hincl, Hin.
Qed.

(** C4. In every state of the queue in which it is not empty, it holds one
    message; [receive()] returns that message and leaves the queue empty,
    so a second [receive()] with no [send] in between returns nothing. *)
Theorem receive_takes_the_slot (cs : list (call T)) :
  state_after cs <> [] ->
  exists msg,
    state_after cs = [msg]
    /\ receive (state_after cs) = Some (msg, [])
    /\ run [CallReceive; CallReceive] (state_after cs) = ([], [msg]).
Proof.
  intros Hne.
  destruct (at_most_one_cases _ (state_after_at_most_one cs)) as [E|[msg E]];
    [contradiction|].
  exists msg. rewrite E. repeat split.
Qed.

(** C5. In every state of the queue, reached through any sends and
    receives, it holds at most one message, also between the two
    instructions of [send]; [send] and [receive] keep it so; and right
    after [send(msg)] the queue holds exactly [msg]. *)
Theorem slot_holds_at_most_one (cs : list (call T)) (msg : T) :
  (length (state_after cs) <= 1)%nat
  /\ (length (clear (state_after cs)) <= 1)%nat
  /\ (forall c q, (length q <= 1)%nat -> (length (fst (apply_call c q)) <= 1)%nat)
  /\ send msg (state_after cs) = [msg]
  /\ state_after (cs ++ [CallSend msg]) = [msg].
Proof.
  split; [apply state_after_at_most_one|].
  split; [cbn; lia|].
  split; [intros c q; apply apply_call_at_most_one|].
  split; [reflexivity|].
  unfold state_after. rewrite run_app. reflexivity.
Qed.

End Facts.

(** A blocked [receive], two sends, two receives and a send: the second
    message is returned once and the third stays in the queue. *)
Example run_overwrites :
  run [CallReceive; CallSend 1; CallSend 2; CallReceive; CallReceive; CallSend 3] create
  = ([3], [2]).
Proof. reflexivity. Qed.

Lemma receive_takes_the_slot_witness :
  exists msg,
    state_after [CallSend red; CallSend green] = [msg]
    /\ receive (state_after [CallSend red; CallSend green]) = Some (msg, [])
    /\ run [CallReceive; CallReceive] (state_after [CallSend red; CallSend green])
       = ([], [msg]).
Proof.
  apply (receive_takes_the_slot [CallSend red; CallSend green]).
  vm_compute. discriminate.
Defined.

End QueueFacts.

(** ** [waitForGreen] *)

Section Traces.
Context {R : Type}.

(** What a trace of a tree says about the node at its root. *)
Lemma is_traceF_inv (ot : itreeF queueE R (itree queueE R)) (tr : @trace queueE R) :
  is_traceF ot tr ->
  match ot with
  | RetF r => tr = TEnd \/ tr = TRet r
  | TauF t => is_traceF (observe t) tr
  | VisF e k =>
      match tr with
      | TEnd | TEventEnd _ => True
      | TRet _ => False
      | TEventResponse e' x tr' =>
          is_traceF (observe (k (answer e (message_of e' x)))) tr'
      end
  end.
Proof.
  intros H. destruct H as [ot| | | |X e x k tr H].
  - destruct ot; auto. constructor.
  - now right.
  - assumption.
  - exact I.
  - destruct e. exact H.
Qed.

End Traces.

(** Every trace over [queueE] is a run of answered [receive()] calls and an
    end: cut short, inside a call, or returned. *)
Lemma trace_is_received (tr : @trace queueE unit) :
  exists msgs rest,
    tr = received msgs rest
    /\ (rest = TEnd \/ rest = TEventEnd Receive \/ rest = TRet tt).
Proof.
  induction tr as [|[]|X e|X e x tr IH].
  - exists [], TEnd. auto.
  - exists [], (TRet tt). auto.
  - destruct e. exists [], (TEventEnd Receive). auto.
  - destruct e. destruct IH as (msgs & rest & -> & Hrest).
    exists (x :: msgs), rest. auto.
Qed.

Lemma waitForGreen_skips (msgs : list TrafficLightPhase) (rest : @trace queueE unit) :
  Forall (fun m => m <> green) msgs ->
  is_trace waitForGreen rest ->
  is_trace waitForGreen (received msgs rest).
Proof.
  induction 1 as [|m msgs Hm _ IH]; intros Hrest; [exact Hrest|].
  destruct m; [|congruence].
  unfold is_trace. cbn. constructor. cbn. constructor. apply IH, Hrest.
Qed.

Lemma waitForGreen_returns_on_green :
  is_trace waitForGreen (received [green] (TRet tt)).
Proof.
  unfold is_trace. cbn. constructor. cbn. constructor.
Qed.

Lemma waitForGreen_calls_receive : is_trace waitForGreen (TEventEnd Receive).
Proof.
  unfold is_trace. cbn. constructor.
Qed.

Lemma received_app (l1 l2 : list TrafficLightPhase) (rest : @trace queueE unit) :
  received (l1 ++ l2) rest = received l1 (received l2 rest).
Proof.
  induction l1 as [|m l1 IH]; cbn; [reflexivity|now rewrite IH].
Qed.

Lemma waitForGreen_returned_inv (msgs : list TrafficLightPhase) :
  is_trace waitForGreen (received msgs (TRet tt)) ->
  exists before,
    msgs = before ++ [green] /\ Forall (fun m => m <> green) before.
Proof.
  induction msgs as [|m msgs IH]; intros H.
  - apply is_traceF_inv in H. cbn in H. contradiction.
  - apply is_traceF_inv in H. cbn in H. destruct m; cbn in H.
    + apply is_traceF_inv in H.
      destruct (IH H) as (before & -> & Hb).
      exists (red :: before). split; [reflexivity|].
      constructor; [discriminate|exact Hb].
    + apply is_traceF_inv in H.
      destruct msgs as [|m msgs]; [|destruct H; discriminate].
      exists []. split; [reflexivity|constructor].
Qed.

(** C3. [waitForGreen()] does nothing but call [receive()].  It has
    returned after the calls returned [msgs] exactly when the last message
    of [msgs] is [green] and none before it is: every other message is
    dropped, and after messages none of which is [green] it is calling
    [receive()] again.  Run on a queue, a call of [receive()] is
    [MessageQueue.receive]: on a queue holding [green] the waiter returns
    and the queue is empty, on any other message it drops it and blocks,
    and on an empty queue it blocks. *)
Theorem waitForGreen_returns_at_first_green (msgs : list TrafficLightPhase) :
  (forall tr, is_trace waitForGreen tr ->
     exists got rest, tr = received got rest
       /\ (rest = TEnd \/ rest = TEventEnd Receive \/ rest = TRet tt))
  /\ (is_trace waitForGreen (received msgs (TRet tt))
      <-> exists before,
            msgs = before ++ [green] /\ Forall (fun m => m <> green) before)
  /\ (Forall (fun m => m <> green) msgs ->
      is_trace waitForGreen (received msgs (TEventEnd Receive)))
  /\ (forall fuel,
        run_waiter (3 + fuel) waitForGreen [green] = (Returned, [])
        /\ run_waiter (3 + fuel) waitForGreen [red] = (Blocked, [])
        /\ run_waiter (3 + fuel) waitForGreen [] = (Blocked, [])).
Proof.
  split; [intros tr _; apply trace_is_received|].
  split; [split|split].
  - apply waitForGreen_returned_inv.
  - intros (before & -> & Hb). rewrite received_app.
    apply waitForGreen_skips; [exact Hb|apply waitForGreen_returns_on_green].
  - intros Hb. apply waitForGreen_skips; [exact Hb|apply waitForGreen_calls_receive].
  - intros fuel. repeat split.
Qed.

(** ** The cycle routine *)

Section Cycle.
Context {P : Platform}.
Implicit Types (self : TrafficLight) (l : CycleLocals) (steps : list cycle_step).

Lemma toggled_involutive (p : TrafficLightPhase) : toggled (toggled p) = p.
Proof. destruct p; reflexivity. Qed.

Lemma toggled_differs (p : TrafficLightPhase) : toggled p <> p.
Proof. destruct p; discriminate. Qed.

(** A turn of the loop either leaves everything as it is, or toggles the
    phase, stores the new phase in the queue and resets the stop watch. *)
Lemma iteration_cases (now_check now_reset : Z) self l :
  (timeSinceLastUpdate now_check l < cycleDuration l
   /\ cycleThroughPhases_iteration now_check now_reset self l = (self, l, []))
  \/
  (cycleDuration l <= timeSinceLastUpdate now_check l
   /\ cycleThroughPhases_iteration now_check now_reset self l =
      ({| _currentPhase := toggled (_currentPhase self);
          _messageQueue := [toggled (_currentPhase self)];
          threads := threads self |},
       {| eng := eng l; cycleDuration := cycleDuration l; lastUpdate := now_reset |},
       [toggled (_currentPhase self)])).
Proof.
  unfold cycleThroughPhases_iteration.
  destruct (timeSinceLastUpdate now_check l >=? cycleDuration l) eqn:E.
  - right. split; [apply Z.geb_le in E; lia|reflexivity].
  - left. split; [|reflexivity].
    rewrite Z.geb_leb in E. apply Z.leb_gt in E. exact E.
Qed.

Lemma take_message_phase self : _currentPhase (fst (take_message self)) = _currentPhase self.
Proof.
  unfold take_message.
  destruct (MessageQueue.receive (_messageQueue self)) as [[msg q']|]; reflexivity.
Qed.

Lemma loop_turn now_check now_reset steps self l :
  cycleThroughPhases_loop (Turn now_check now_reset :: steps) self l =
  let r1 := cycleThroughPhases_iteration now_check now_reset self l in
  let r2 := cycleThroughPhases_loop steps (actor_of r1) (locals_of r1) in
  (actor_of r2, locals_of r2, published_of r1 ++ published_of r2).
Proof.
  cbn [cycleThroughPhases_loop].
  destruct (cycleThroughPhases_iteration now_check now_reset self l) as [[self1 l1] out1].
  cbn. destruct (cycleThroughPhases_loop steps self1 l1) as [[self2 l2] out2].
  reflexivity.
Qed.

Lemma last_cons_default {A : Type} (x : A) (xs : list A) (d d' : A) :
  last (x :: xs) d = last (x :: xs) d'.
Proof.
  revert x. induction xs as [|y xs IH]; intros x; [reflexivity|].
  change (last (y :: xs) d = last (y :: xs) d'). apply IH.
Qed.

Ltac unfold_parts :=
  unfold actor_of, locals_of, published_of in *; cbn [fst snd] in *.

(** The loop never touches the duration or the generator. *)
Lemma loop_keeps_duration steps : forall self l,
  cycleDuration (locals_of (cycleThroughPhases_loop steps self l)) = cycleDuration l
  /\ eng (locals_of (cycleThroughPhases_loop steps self l)) = eng l.
Proof.
  induction steps as [|[a b|] steps IH]; intros self l.
  - split; reflexivity.
  - rewrite loop_turn. cbn zeta.
    destruct (iteration_cases a b self l) as [[_ ->]|[_ ->]]; unfold_parts.
    + apply IH.
    + match goal with |- context [cycleThroughPhases_loop steps ?s ?m] =>
        destruct (IH s m) as [-> ->] end.
      split; reflexivity.
  - cbn [cycleThroughPhases_loop]. apply IH.
Qed.

(** What the loop publishes alternates, starting with the phase opposite
    to the current one; the current phase afterwards is the last phase
    published. *)
Lemma loop_publishes_alternating steps : forall self l,
  published_of (cycleThroughPhases_loop steps self l)
  = alternating (toggled (_currentPhase self))
      (length (published_of (cycleThroughPhases_loop steps self l)))
  /\ _currentPhase (actor_of (cycleThroughPhases_loop steps self l))
     = last (published_of (cycleThroughPhases_loop steps self l)) (_currentPhase self).
Proof.
  induction steps as [|[a b|] steps IH]; intros self l.
  - split; reflexivity.
  - rewrite loop_turn. cbn zeta.
    destruct (iteration_cases a b self l) as [[_ ->]|[_ ->]]; unfold_parts.
    + apply IH.
    + match goal with |- context [cycleThroughPhases_loop steps ?s ?m] =>
        destruct (IH s m) as [H1 H2]; cbn [_currentPhase] in H1, H2;
        destruct (cycleThroughPhases_loop steps s m) as [[self2 l2] out2]
      end.
      cbn [fst snd] in *. cbn [app length alternating]. split.
      * f_equal. exact H1.
      * rewrite H2. destruct out2 as [|t out2]; [reflexivity|].
        change (last (t :: out2) (toggled (_currentPhase self))
                = last (t :: out2) (_currentPhase self)).
        apply last_cons_default.
  - cbn [cycleThroughPhases_loop].
    specialize (IH (fst (take_message self)) l).
    rewrite take_message_phase in IH. exact IH.
Qed.

Lemma alternating_no_repeat (p : TrafficLightPhase) (n : nat) :
  no_repeat (alternating p n) = true.
Proof.
  revert p. induction n as [|n IH]; intros p; [reflexivity|].
  cbn [alternating]. specialize (IH (toggled p)).
  destruct n as [|n]; [reflexivity|].
  cbn [alternating] in *. cbn [no_repeat]. cbn [no_repeat] in IH.
  rewrite IH. destruct p; reflexivity.
Qed.

Lemma alternating_nth (n : nat) : forall (p q : TrafficLightPhase) (i : nat),
  nth_error (alternating p n) i = Some q ->
  q = if Nat.even i then p else toggled p.
Proof.
  induction n as [|n IH]; intros p q i H; [destruct i; discriminate|].
  destruct i as [|i]; cbn in H; [injection H as <-; reflexivity|].
  apply IH in H. rewrite Nat.even_succ, <- Nat.negb_even.
  destruct (Nat.even i); cbn; [exact H|].
  now rewrite toggled_involutive in H.
Qed.

Lemma loop_queue_follows_phase steps : forall self l,
  queue_follows_phase self ->
  queue_follows_phase (actor_of (cycleThroughPhases_loop steps self l)).
Proof.
  induction steps as [|[a b|] steps IH]; intros self l H.
  - exact H.
  - rewrite loop_turn. cbn zeta.
    destruct (iteration_cases a b self l) as [[_ ->]|[_ ->]]; unfold_parts.
    + apply IH, H.
    + apply IH. right. reflexivity.
  - cbn [cycleThroughPhases_loop]. apply IH.
    unfold queue_follows_phase, take_message.
    destruct H as [H|H]; rewrite H; cbn; left; [exact H|reflexivity].
Qed.

(** With a clock that ticks, any number of transitions does occur. *)
Lemma every_number_of_transitions_occurs (n : nat) :
  0 < ticks_per_ms ->
  forall self l, exists steps,
    length (published_of (cycleThroughPhases_loop steps self l)) = n.
Proof.
  intros Hticks. induction n as [|n IH]; intros self l.
  - exists []. reflexivity.
  - set (now_check := lastUpdate l + Z.max 0 (cycleDuration l) * ticks_per_ms).
    destruct (iteration_cases now_check 0 self l) as [[Hlt _]|[_ E]].
    + exfalso. unfold timeSinceLastUpdate, now_check in Hlt.
      replace (lastUpdate l + Z.max 0 (cycleDuration l) * ticks_per_ms - lastUpdate l)
        with (Z.max 0 (cycleDuration l) * ticks_per_ms) in Hlt by ring.
      rewrite Z.quot_mul in Hlt by lia. lia.
    + match type of E with _ = (?s, ?m, _) => destruct (IH s m) as [steps Hs] end.
      exists (Turn now_check 0 :: steps).
      rewrite loop_turn. cbn zeta. rewrite E. unfold_parts.
      cbn [app length]. now rewrite Hs.
Qed.

(** C2. Started on a freshly constructed actor, whose phase is [red], the
    routine publishes, over any number of steps, the sequence [green],
    [red], [green], ... of as many phases as transitions took place: the
    first is [green], no two neighbours are equal, and the [i]-th (from 0)
    is [green] for even [i] and [red] for odd [i]. *)
Theorem published_phases_alternate (rd now : Z) steps :
  let out := published_of (cycleThroughPhases rd now steps TrafficLight_TrafficLight) in
  out = alternating green (length out)
  /\ no_repeat out = true
  /\ (forall first rest, out = first :: rest -> first = green)
  /\ (forall i p, nth_error out i = Some p -> p = if Nat.even i then green else red).
Proof.
  cbn zeta. unfold cycleThroughPhases.
  destruct (loop_publishes_alternating steps TrafficLight_TrafficLight
              (cycleThroughPhases_prologue rd now)) as [H _].
  cbn [TrafficLight_TrafficLight _currentPhase] in H.
  change (toggled red) with green in H.
  split; [exact H|]. split; [rewrite H; apply alternating_no_repeat|].
  split.
  - intros first rest E. rewrite E in H. cbn in H. congruence.
  - intros i p Hi. rewrite H in Hi. apply alternating_nth in Hi. exact Hi.
Qed.

(** C6. The duration is drawn in the prologue, before the loop, with one
    use of the generator; over any number of steps of the loop the
    duration stays the value drawn and the generator stays as that one
    draw left it, and whether a turn makes a transition is decided by
    comparing the elapsed time with that same value. *)
Theorem duration_is_drawn_once (rd now : Z) steps self :
  let drawn := uniform_int_distribution 4000 6000 (mt19937 rd) in
  let r := cycleThroughPhases rd now steps self in
  cycleDuration (cycleThroughPhases_prologue rd now) = fst drawn
  /\ eng (cycleThroughPhases_prologue rd now) = snd drawn
  /\ cycleDuration (locals_of r) = fst drawn
  /\ eng (locals_of r) = snd drawn
  /\ (forall now_check now_reset,
        published_of
          (cycleThroughPhases_iteration now_check now_reset (actor_of r) (locals_of r))
        <> []
        <-> fst drawn <= timeSinceLastUpdate now_check (locals_of r)).
Proof.
  cbn zeta. unfold cycleThroughPhases.
  destruct (loop_keeps_duration steps self (cycleThroughPhases_prologue rd now))
    as [Hd He].
  assert (Hp : cycleDuration (cycleThroughPhases_prologue rd now)
               = fst (uniform_int_distribution 4000 6000 (mt19937 rd))
               /\ eng (cycleThroughPhases_prologue rd now)
                  = snd (uniform_int_distribution 4000 6000 (mt19937 rd))).
  { unfold cycleThroughPhases_prologue.
    destruct (uniform_int_distribution 4000 6000 (mt19937 rd)); split; reflexivity. }
  destruct Hp as [Hp1 Hp2].
  split; [exact Hp1|]. split; [exact Hp2|].
  split; [now rewrite Hd|]. split; [now rewrite He|].
  intros now_check now_reset. rewrite <- Hp1, <- Hd.
  match goal with |- context [cycleThroughPhases_iteration _ _ ?s ?m] =>
    destruct (iteration_cases now_check now_reset s m) as [[Hlt ->]|[Hle ->]] end;
    unfold published_of; cbn [snd]; split; intros H;
    try lia; try congruence; discriminate.
Qed.

(** C7. On a platform whose distribution keeps to its bounds, the duration
    the routine draws, and the duration it holds after any number of steps,
    lies between 4000 and 6000 milliseconds. *)
Theorem duration_within_bounds (rd now : Z) steps self :
  draws_within_bounds P ->
  4000 <= cycleDuration (cycleThroughPhases_prologue rd now) <= 6000
  /\ 4000 <= cycleDuration (locals_of (cycleThroughPhases rd now steps self)) <= 6000.
Proof.
  intros Hdist. unfold cycleThroughPhases.
  destruct (loop_keeps_duration steps self (cycleThroughPhases_prologue rd now))
    as [-> _].
  assert (H : 4000 <= cycleDuration (cycleThroughPhases_prologue rd now) <= 6000).
  { unfold cycleThroughPhases_prologue.
    pose proof (Hdist 4000 6000 (mt19937 rd) ltac:(lia)) as H.
    destruct (uniform_int_distribution 4000 6000 (mt19937 rd)); exact H. }
  split; exact H.
Qed.

(** C10. In whatever state the routine is, a turn of its loop either
    publishes nothing and leaves the actor as it is, or makes a transition:
    the stored phase becomes the opposite phase, and the one message
    published is that new stored phase, which is also what the queue holds
    right after.  So the current phase is always the last phase published,
    and on an actor started fresh the queue never holds anything but the
    current phase. *)
Theorem published_phase_is_current_phase (rd now : Z) steps self0 (now_check now_reset : Z) :
  let r := cycleThroughPhases rd now steps self0 in
  let r' := cycleThroughPhases_iteration now_check now_reset (actor_of r) (locals_of r) in
  let fresh := cycleThroughPhases rd now steps TrafficLight_TrafficLight in
  ((published_of r' = [] /\ actor_of r' = actor_of r)
   \/ (published_of r' = [_currentPhase (actor_of r')]
       /\ _currentPhase (actor_of r') = toggled (_currentPhase (actor_of r))
       /\ _currentPhase (actor_of r') <> _currentPhase (actor_of r)
       /\ _messageQueue (actor_of r') = [_currentPhase (actor_of r')]))
  /\ _currentPhase (actor_of r) = last (published_of r) (_currentPhase self0)
  /\ (_messageQueue (actor_of fresh) = []
      \/ _messageQueue (actor_of fresh) = [_currentPhase (actor_of fresh)]).
Proof.
  cbn zeta. split; [|split].
  - match goal with |- context [cycleThroughPhases_iteration _ _ ?s ?m] =>
      destruct (iteration_cases now_check now_reset s m) as [[_ ->]|[_ ->]] end.
    + left. split; reflexivity.
    + right. unfold actor_of at 1 2 3 5 6, published_of. cbn [fst snd _currentPhase _messageQueue].
      repeat split. apply toggled_differs.
  - apply loop_publishes_alternating.
  - apply loop_queue_follows_phase. left. reflexivity.
Qed.

End Cycle.

(** On the sample platform the seed 2024 draws 4023 ms: of five turns, the
    first and the third come too early, and the others make a transition. *)
Example cycle_on_sample_platform :
  let r := @cycleThroughPhases sample_platform 2024 0
             [Turn 100 0; Turn 5500000000 5500000001; Taken;
              Turn 9000000000 9000000002; Turn 50000000000 7; Turn 50000000000 7]
             TrafficLight_TrafficLight in
  published_of r = [green; red; green]
  /\ cycleDuration (locals_of r) = 4023
  /\ lastUpdate (locals_of r) = 7
  /\ getCurrentPhase (actor_of r) = green
  /\ _messageQueue (actor_of r) = [green].
Proof. vm_compute. repeat split. Qed.

Lemma sample_platform_within_bounds : draws_within_bounds sample_platform.
Proof.
  intros a b e Hab. cbn.
  pose proof (Z.mod_pos_bound e (b - a + 1) ltac:(lia)). lia.
Qed.

Lemma duration_within_bounds_witness :
  4000 <= cycleDuration (@cycleThroughPhases_prologue sample_platform 2024 0) <= 6000
  /\ 4000 <= cycleDuration
               (locals_of
                  (@cycleThroughPhases sample_platform 2024 0
                     [Turn 5500000000 5500000001; Taken; Turn 9000000000 9000000002]
                     TrafficLight_TrafficLight)) <= 6000.
Proof.
  apply (@duration_within_bounds sample_platform 2024 0
           [Turn 5500000000 5500000001; Taken; Turn 9000000000 9000000002]
           TrafficLight_TrafficLight).
  exact sample_platform_within_bounds.
Defined.

(** ** The actor before [simulate()] *)

Section BeforeStart.
Context {P : Platform}.
Implicit Types (self : TrafficLight) (es : list event).

Lemma actor_run_cons (e : event) es self :
  actor_run (e :: es) self =
  (fst (actor_run es (fst (actor_step e self))),
   snd (actor_step e self) ++ snd (actor_run es (fst (actor_step e self)))).
Proof.
  cbn [actor_run]. destruct (actor_step e self) as [self1 out1]. cbn [fst snd].
  destruct (actor_run es self1); reflexivity.
Qed.

Lemma not_started_step (e : event) self :
  is_simulate e = false ->
  not_started self ->
  not_started (fst (actor_step e self))
  /\ (forall p, In (ObsPhase p) (snd (actor_step e self)) -> p = red)
  /\ (forall p, ~ In (ObsSent p) (snd (actor_step e self))).
Proof.
  intros He [Ht Hp]. destruct e as [|rd now|k a b|]; cbn in He; try discriminate.
  - cbn [actor_step fst snd]. unfold getCurrentPhase.
    split; [split; assumption|].
    split; intros p Hin; cbn in Hin; intuition congruence.
  - cbn [actor_step]. rewrite Ht.
    replace (nth_error (@nil CycleLocals) k) with (@None CycleLocals)
      by (destruct k; reflexivity).
    cbn [fst snd]. split; [split; assumption|].
    split; intros p Hin; cbn in Hin; intuition congruence.
  - cbn [actor_step]. unfold take_message.
    destruct (MessageQueue.receive (_messageQueue self)) as [[msg q']|];
      cbn [fst snd map]; (split; [split; assumption|]);
      split; intros p Hin; cbn in Hin; intuition congruence.
Qed.

Lemma not_started_run es : forall self,
  forallb (fun e => negb (is_simulate e)) es = true ->
  not_started self ->
  not_started (fst (actor_run es self))
  /\ (forall p, In (ObsPhase p) (snd (actor_run es self)) -> p = red)
  /\ (forall p, ~ In (ObsSent p) (snd (actor_run es self))).
Proof.
  induction es as [|e es IH]; intros self Hes Hself.
  - cbn. repeat split; auto; try apply Hself. intros p [].
  - cbn [forallb] in Hes. apply andb_prop in Hes. destruct Hes as [He Hes].
    apply negb_true_iff in He.
    destruct (not_started_step e He Hself) as (H1 & H2 & H3).
    destruct (IH _ Hes H1) as (H4 & H5 & H6).
    rewrite actor_run_cons. cbn [fst snd]. split; [exact H4|]. split.
    + intros p Hin. apply in_app_or in Hin. destruct Hin; auto.
    + intros p Hin. apply in_app_or in Hin. destruct Hin as [Hin|Hin].
      * exact (H3 p Hin).
      * exact (H6 p Hin).
Qed.

(** C8. A freshly constructed actor has phase [red].  As long as
    [simulate()] has not been called, whatever else happens to the actor
    (calls of [getCurrentPhase()], threads waiting in [waitForGreen()]),
    its phase stays [red], every call of [getCurrentPhase()] returns [red],
    and nothing is published. *)
Theorem phase_is_red_before_simulate es :
  forallb (fun e => negb (is_simulate e)) es = true ->
  getCurrentPhase TrafficLight_TrafficLight = red
  /\ getCurrentPhase (fst (actor_run es TrafficLight_TrafficLight)) = red
  /\ (forall p, In (ObsPhase p) (snd (actor_run es TrafficLight_TrafficLight)) -> p = red)
  /\ (forall p, ~ In (ObsSent p) (snd (actor_run es TrafficLight_TrafficLight))).
Proof.
  intros Hes. split; [reflexivity|].
  assert (H0 : not_started TrafficLight_TrafficLight) by (split; reflexivity).
  destruct (not_started_run es Hes H0) as ([_ H1] & H2 & H3).
  repeat split; assumption.
Qed.

End BeforeStart.

Lemma phase_is_red_before_simulate_witness :
  let es := [EvGetCurrentPhase; EvReceive; EvTurn 0 9000000000 9000000001;
             EvGetCurrentPhase] in
  getCurrentPhase (@TrafficLight_TrafficLight sample_platform) = red
  /\ getCurrentPhase (fst (actor_run es (@TrafficLight_TrafficLight sample_platform))) = red
  /\ (forall p, In (ObsPhase p)
                  (snd (actor_run es (@TrafficLight_TrafficLight sample_platform)))
                -> p = red)
  /\ (forall p, ~ In (ObsSent p)
                    (snd (actor_run es (@TrafficLight_TrafficLight sample_platform)))).
Proof.
  apply (@phase_is_red_before_simulate sample_platform
           [EvGetCurrentPhase; EvReceive; EvTurn 0 9000000000 9000000001;
            EvGetCurrentPhase]).
  reflexivity.
Defined.

(** ** One [receive()] against a producer *)

Module HandoffFacts.
Import Handoff.
Section Facts.
Context {T : Type}.
Implicit Types (s : state T) (msgs : list T) (sched : list action).

Lemma back_In (l : list T) (m : T) : MessageQueue.back l = Some m -> In m l.
Proof.
  induction l as [|a l IH]; [discriminate|].
  destruct l as [|b l]; cbn [MessageQueue.back].
  - intros E. injection E as <-. now left.
  - intros E. right. apply IH, E.
Qed.

Lemma latest_snoc (l : list T) (m : T) : latest (l ++ [m]) = [m].
Proof.
  unfold latest.
  change (l ++ [m]) with (MessageQueue.push_back l m).
  now rewrite QueueFacts.back_push_back.
Qed.

Lemma receive_latest (l : list T) :
  MessageQueue.receive (latest l) =
  match MessageQueue.back l with
  | Some m => Some (m, [])
  | None => None
  end.
Proof. unfold latest. destruct (MessageQueue.back l); reflexivity. Qed.

Lemma invariant_initial msgs : invariant msgs (initial msgs).
Proof.
  constructor; cbn; try reflexivity; discriminate.
Qed.

Lemma consume_preserves msgs s s' :
  invariant msgs s -> consume_step s = Some s' -> invariant msgs s'.
Proof.
  intros [H1 H2 H3 H4 H5 H6] E.
  destruct s as [q m r p pend comp]. unfold consume_step in E. cbn in *.
  destruct r; try discriminate.
  - (* entry *)
    destruct m; cbn in E; [discriminate|]. injection E as <-.
    assert (p = SndIdle) as -> by (destruct p; cbn in H2; congruence).
    constructor; cbn; auto; try discriminate.
  - (* locked *)
    specialize (H3 eq_refl). subst p. specialize (H5 eq_refl). cbn in H5. subst q.
    rewrite receive_latest in E.
    destruct (MessageQueue.back comp) as [m0|] eqn:Eb; injection E as <-.
    + constructor; cbn; auto; try discriminate.
      intros v Hv. injection Hv as <-. apply back_In, Eb.
    + constructor; cbn; auto; try discriminate.
      intros _. left. unfold latest. now rewrite Eb.
  - (* woken *)
    destruct m; cbn in E; [discriminate|]. injection E as <-.
    assert (p = SndIdle) as -> by (destruct p; cbn in H2; congruence).
    constructor; cbn; auto; try discriminate.
Qed.

Lemma produce_preserves msgs s s' :
  invariant msgs s -> produce_step s = Some s' -> invariant msgs s'.
Proof.
  intros [H1 H2 H3 H4 H5 H6] E.
  destruct s as [q m r p pend comp]. unfold produce_step in E. cbn in *.
  destruct p as [|msg|msg|msg|msg].
  - (* idle *)
    destruct pend as [|msg rest]; [discriminate|].
    destruct m; cbn in E; [discriminate|]. injection E as <-.
    assert (Hr : r <> RcvLocked) by (destruct r; cbn in H2; congruence).
    constructor; cbn; auto.
    + destruct r; cbn; congruence.
    + intros Hl. contradiction.
    + intros Hw. destruct (H4 Hw) as [->|[m0 Hm0]]; [now left|discriminate].
  - (* locked: clear *)
    injection E as <-.
    assert (Hr : r <> RcvLocked) by (intros ->; specialize (H3 eq_refl); discriminate).
    constructor; cbn; auto.
    + intros Hl. contradiction.
  - (* cleared: push_back *)
    injection E as <-.
    assert (Hr : r <> RcvLocked) by (intros ->; specialize (H3 eq_refl); discriminate).
    constructor; cbn; auto.
    + intros Hl. contradiction.
    + intros _. right. now exists msg.
    + intros Hret. rewrite (H5 Hret). reflexivity.
  - (* pushed: notify_one *)
    injection E as <-.
    assert (Hr : r <> RcvLocked) by (intros ->; specialize (H3 eq_refl); discriminate).
    constructor; cbn; auto.
    + destruct r; cbn in *; congruence.
    + destruct r; cbn; congruence.
    + destruct r; cbn; discriminate.
    + destruct r; cbn in *; auto.
    + destruct r; cbn in *; auto; discriminate.
  - (* notified: unlock *)
    injection E as <-.
    assert (Hr : r <> RcvLocked) by (intros ->; specialize (H3 eq_refl); discriminate).
    constructor; cbn; auto.
    + rewrite <- H1. cbn. now rewrite <- app_assoc.
    + destruct r; cbn; congruence.
    + intros Hw. destruct (H4 Hw) as [->|[m0 Hm0]]; [now left|discriminate].
    + intros Hret. rewrite (H5 Hret). now rewrite latest_snoc.
    + intros v Hv. apply in_or_app. left. apply H6, Hv.
Qed.

Lemma spurious_preserves msgs s s' :
  invariant msgs s -> spurious_wakeup s = Some s' -> invariant msgs s'.
Proof.
  intros [H1 H2 H3 H4 H5 H6] E.
  destruct s as [q m r p pend comp]. unfold spurious_wakeup in E. cbn in *.
  destruct r; try discriminate. injection E as <-.
  constructor; cbn; auto; try discriminate.
Qed.

Lemma perform_preserves msgs (a : action) s :
  invariant msgs s -> invariant msgs (perform a s).
Proof.
  intros H. unfold perform. destruct (step a s) as [s'|] eqn:E; [|exact H].
  destruct a; cbn in E.
  - eapply consume_preserves; eassumption.
  - eapply produce_preserves; eassumption.
  - eapply spurious_preserves; eassumption.
Qed.

Lemma run_preserves msgs sched : forall s,
  invariant msgs s -> invariant msgs (run sched s).
Proof.
  induction sched as [|a sched IH]; intros s H; [exact H|].
  apply IH, perform_preserves, H.
Qed.

Lemma run_append sched1 sched2 s : run (sched1 ++ sched2) s = run sched2 (run sched1 s).
Proof. apply fold_left_app. Qed.

Lemma run_next (a : action) sched s : run (a :: sched) s = run sched (perform a s).
Proof. reflexivity. Qed.

Lemma back_none (l : list T) : MessageQueue.back l = None -> l = [].
Proof.
  destruct l as [|a l]; [reflexivity|]. intros E. exfalso.
  revert a E. induction l as [|b l IH]; intros a E; [discriminate|].
  apply (IH b). exact E.
Qed.

(** Every instruction of either thread uses up some of the work left; a
    spurious wakeup adds the two instructions the consumer needs to go
    back to sleep. *)
Lemma consume_decreases s s' :
  consume_step s = Some s' -> (work_left s' < work_left s)%nat.
Proof.
  destruct s as [q m r p pend comp]. unfold consume_step, work_left, sender_left.
  cbn [rcv mutex queue snd_pc pending completed].
  destruct r; try discriminate.
  - destruct (is_free m); [|discriminate]. intros E. injection E as <-. cbn. lia.
  - destruct (MessageQueue.receive q) as [[msg q']|]; intros E; injection E as <-;
      cbn; lia.
  - destruct (is_free m); [|discriminate]. intros E. injection E as <-. cbn. lia.
Qed.

Lemma produce_decreases s s' :
  produce_step s = Some s' -> (work_left s' < work_left s)%nat.
Proof.
  destruct s as [q m r p pend comp]. unfold produce_step, work_left, sender_left.
  cbn [rcv mutex queue snd_pc pending completed].
  destruct p as [|msg|msg|msg|msg].
  - destruct pend as [|msg rest]; [discriminate|].
    destruct (is_free m); [|discriminate]. intros E. injection E as <-.
    cbn [rcv snd_pc pending length]. lia.
  - intros E. injection E as <-. cbn [rcv snd_pc pending]. lia.
  - intros E. injection E as <-. cbn [rcv snd_pc pending]. lia.
  - intros E. injection E as <-. cbn [rcv snd_pc pending].
    destruct r; cbn [notify_one receiver_rank]; lia.
  - intros E. injection E as <-. cbn [rcv snd_pc pending]. lia.
Qed.

Lemma spurious_adds s s' :
  spurious_wakeup s = Some s' -> work_left s' = (work_left s + 2)%nat.
Proof.
  destruct s as [q m r p pend comp]. unfold spurious_wakeup, work_left, sender_left.
  cbn [rcv mutex queue snd_pc pending completed].
  destruct r; try discriminate. intros E. injection E as <-. cbn. lia.
Qed.

(** As long as [receive()] has not returned and there is something to
    send, one of the two threads can run an instruction. *)
Lemma no_deadlock msgs s :
  msgs <> [] -> invariant msgs s -> has_returned s = false ->
  consume_step s <> None \/ produce_step s <> None.
Proof.
  intros Hmsgs [H1 H2 H3 H4 H5 H6] Hret.
  destruct (produce_step s) as [s1|] eqn:Ep; [right; discriminate|]. left.
  destruct s as [q m r p pend comp]. unfold produce_step in Ep.
  unfold consume_step. cbn in *.
  destruct p as [|msg|msg|msg|msg]; try discriminate.
  specialize (H5 Hret). cbn in H5.
  destruct r; try discriminate.
  - rewrite H2. discriminate.
  - destruct (MessageQueue.receive q) as [[? ?]|]; discriminate.
  - exfalso. destruct (H4 eq_refl) as [Hq|[m0 Hm0]]; [|discriminate].
    destruct pend as [|msg rest].
    + rewrite app_nil_r in H1. subst comp. subst q.
      unfold latest in Hq. destruct (MessageQueue.back msgs) eqn:Eb; [discriminate|].
      apply back_none in Eb. contradiction.
    + rewrite H2 in Ep. discriminate.
  - rewrite H2. discriminate.
Qed.

(** So, from any state the two threads can reach, [receive()] returns
    after at most [work_left] further instructions of the two threads. *)
Lemma returns_within_work_left msgs :
  msgs <> [] ->
  forall (n : nat) s,
    invariant msgs s -> (work_left s <= n)%nat ->
    exists more,
      (length more <= n)%nat
      /\ Forall (fun a => a <> Spurious) more
      /\ has_returned (run more s) = true.
Proof.
  intros Hmsgs. induction n as [|n IH]; intros s Hinv Hn;
    destruct (has_returned s) eqn:Hret;
    try (exists []; repeat split; [cbn; lia|constructor|exact Hret]).
  - exfalso. destruct (no_deadlock Hmsgs Hinv Hret) as [H|H].
    + destruct (consume_step s) as [s'|] eqn:E; [|congruence].
      apply consume_decreases in E. lia.
    + destruct (produce_step s) as [s'|] eqn:E; [|congruence].
      apply produce_decreases in E. lia.
  - destruct (no_deadlock Hmsgs Hinv Hret) as [H|H].
    + destruct (consume_step s) as [s'|] eqn:E; [|congruence].
      destruct (IH s') as (more & Hlen & Hns & Hr).
      { eapply consume_preserves; eassumption. }
      { apply consume_decreases in E. lia. }
      exists (Consume :: more). repeat split.
      * cbn. lia.
      * constructor; [discriminate|exact Hns].
      * rewrite run_next. unfold perform. cbn [step]. rewrite E. exact Hr.
    + destruct (produce_step s) as [s'|] eqn:E; [|congruence].
      destruct (IH s') as (more & Hlen & Hns & Hr).
      { eapply produce_preserves; eassumption. }
      { apply produce_decreases in E. lia. }
      exists (Produce :: more). repeat split.
      * cbn. lia.
      * constructor; [discriminate|exact Hns].
      * rewrite run_next. unfold perform. cbn [step]. rewrite E. exact Hr.
Qed.

(** [receive()] returns in one way only: the consumer, holding the lock,
    finds a message at the back of a queue that is not empty. *)
Lemma returns_only_by_taking (a : action) s (v : T) :
  rcv (perform a s) = RcvReturned v ->
  rcv s = RcvReturned v
  \/ (a = Consume /\ rcv s = RcvLocked /\ queue s <> []
      /\ MessageQueue.back (queue s) = Some v).
Proof.
  destruct s as [q m r p pend comp]. unfold perform.
  destruct a; cbn [step].
  - unfold consume_step. cbn [rcv mutex queue snd_pc pending completed].
    destruct r; cbn; auto; try (destruct (is_free m); cbn; discriminate).
    unfold MessageQueue.receive.
    destruct q as [|x q]; cbn [MessageQueue.empty]; [cbn; discriminate|].
    destruct (MessageQueue.back (x :: q)) as [m0|] eqn:Eb; cbn; [|discriminate].
    intros E. injection E as <-. right. repeat split. discriminate.
  - unfold produce_step. cbn [rcv mutex queue snd_pc pending completed].
    destruct p as [|msg|msg|msg|msg]; cbn; auto.
    + destruct pend; cbn; auto. destruct (is_free m); cbn; auto.
    + destruct r; cbn; auto; discriminate.
  - unfold spurious_wakeup. cbn [rcv]. destruct r; cbn; auto; discriminate.
Qed.

(** C9. A consumer calls [receive()] on an empty queue while a producer
    sends the messages [msgs], one [send] after the other; [s] is any state
    the two threads get to, under any scheduling and any spurious wakeups.
    - [receive()] returns only a message of a [send] that has completed,
      so not before a send occurred; with one message sent, that message.
    - It returns in one way only: holding the lock, with the queue not
      empty, taking the message at its back.  Holding the lock with the
      queue empty it goes to wait; suspended it runs no instruction (no
      busy waiting); woken, for whatever reason, it takes the lock and
      tests the predicate again.
    - No wakeup is missed: the consumer is suspended with a message in the
      queue only while the producer still holds the lock and is about to
      call [notify_one].
    - No deadlock: as long as it has not returned, one of the two threads
      can run; each instruction uses up work and only a spurious wakeup
      adds some, so [receive()] does return, within [work_left s] further
      instructions. *)
Theorem receive_blocks_until_send msgs sched :
  msgs <> [] ->
  let s := run sched (initial msgs) in
  queue (initial msgs) = []
  /\ (forall v, rcv s = RcvReturned v -> In v (completed s) /\ In v msgs)
  /\ (forall m v, msgs = [m] -> rcv s = RcvReturned v -> v = m)
  /\ (forall a v, rcv (perform a s) = RcvReturned v ->
        rcv s = RcvReturned v
        \/ (a = Consume /\ rcv s = RcvLocked /\ queue s <> []
            /\ MessageQueue.back (queue s) = Some v))
  /\ (rcv s = RcvLocked -> queue s = [] -> rcv (perform Consume s) = RcvWaiting)
  /\ (rcv s = RcvWaiting -> consume_step s = None)
  /\ (rcv s = RcvWoken -> forall s', consume_step s = Some s' -> rcv s' = RcvLocked)
  /\ (rcv s = RcvWaiting -> queue s = [] \/ exists m, snd_pc s = SndPushed m)
  /\ (has_returned s = false -> consume_step s <> None \/ produce_step s <> None)
  /\ (forall s', consume_step s = Some s' \/ produce_step s = Some s' ->
        (work_left s' < work_left s)%nat)
  /\ (forall s', spurious_wakeup s = Some s' -> work_left s' = (work_left s + 2)%nat)
  /\ (exists more,
        (length more <= work_left s)%nat
        /\ Forall (fun a => a <> Spurious) more
        /\ has_returned (run (sched ++ more) (initial msgs)) = true).
Proof.
  intros Hmsgs s.
  assert (Hinv : invariant msgs s) by apply run_preserves, invariant_initial.
  assert (Hsent : forall v, rcv s = RcvReturned v -> In v (completed s) /\ In v msgs).
  { intros v Hv. pose proof (inv_returned Hinv Hv) as Hin. split; [exact Hin|].
    rewrite <- (inv_script Hinv). apply in_or_app. now left. }
  split; [reflexivity|]. split; [exact Hsent|].
  split.
  { intros m v -> Hv. destruct (Hsent v Hv) as [_ [E|[]]]. now symmetry. }
  split; [intros a v; apply returns_only_by_taking|].
  split.
  { intros Hl Hq. unfold perform. cbn [step]. unfold consume_step.
    rewrite Hl, Hq. reflexivity. }
  split; [intros Hw; unfold consume_step; now rewrite Hw|].
  split.
  { intros Hw s'. unfold consume_step. rewrite Hw.
    destruct (is_free (mutex s)); [|discriminate].
    intros E. injection E as <-. reflexivity. }
  split; [apply (inv_wakeup Hinv)|].
  split; [apply (no_deadlock Hmsgs Hinv)|].
  split.
  { intros s' [E|E]; [apply consume_decreases, E|apply produce_decreases, E]. }
  split; [intros s'; apply spurious_adds|].
  destruct (returns_within_work_left Hmsgs Hinv (le_n (work_left s)))
    as (more & Hlen & Hns & Hret).
  exists more. rewrite run_append. repeat split; assumption.
Qed.

End Facts.

(** The consumer goes to wait, is woken for nothing and goes to wait again,
    and returns the first message once its [send] is through. *)
Example handoff_with_spurious_wakeup :
  let s := run [Consume; Consume; Spurious; Consume; Consume;
                Produce; Produce; Produce; Produce; Consume; Produce;
                Consume; Consume]
               (initial [green; red]) in
  rcv s = RcvReturned green /\ queue s = [] /\ completed s = [green].
Proof. repeat split. Qed.

Lemma receive_blocks_until_send_witness :
  let msgs := [green; red] in
  let sched := [Consume; Consume; Spurious; Consume; Produce; Consume; Produce] in
  let s := run sched (initial msgs) in
  queue (initial msgs) = []
  /\ (forall v, rcv s = RcvReturned v -> In v (completed s) /\ In v msgs)
  /\ (forall m v, msgs = [m] -> rcv s = RcvReturned v -> v = m)
  /\ (forall a v, rcv (perform a s) = RcvReturned v ->
        rcv s = RcvReturned v
        \/ (a = Consume /\ rcv s = RcvLocked /\ queue s <> []
            /\ MessageQueue.back (queue s) = Some v))
  /\ (rcv s = RcvLocked -> queue s = [] -> rcv (perform Consume s) = RcvWaiting)
  /\ (rcv s = RcvWaiting -> consume_step s = None)
  /\ (rcv s = RcvWoken -> forall s', consume_step s = Some s' -> rcv s' = RcvLocked)
  /\ (rcv s = RcvWaiting -> queue s = [] \/ exists m, snd_pc s = SndPushed m)
  /\ (has_returned s = false -> consume_step s <> None \/ produce_step s <> None)
  /\ (forall s', consume_step s = Some s' \/ produce_step s = Some s' ->
        (work_left s' < work_left s)%nat)
  /\ (forall s', spurious_wakeup s = Some s' -> work_left s' = (work_left s + 2)%nat)
  /\ (exists more,
        (length more <= work_left s)%nat
        /\ Forall (fun a => a <> Spurious) more
        /\ has_returned (run (sched ++ more) (initial msgs)) = true).
Proof.
  apply (@receive_blocks_until_send TrafficLightPhase [green; red]
           [Consume; Consume; Spurious; Consume; Produce; Consume; Produce]).
  discriminate.
Defined.

End HandoffFacts.

(* ===================================================================== *)
(** * Part III: further properties                                        *)
(* ===================================================================== *)

(** ** The queue on any sequence, and what it delivers *)

Module QueueDelivery.
Import MessageQueue.
Section Facts.
Context {T : Type}.
Implicit Types (q : MessageQueue.t T) (cs : list (call T)) (msg : T).

Lemma receive_blocks_iff_empty q : receive q = None <-> q = [].
Proof.
  split; [|intros ->; reflexivity].
  destruct q as [|a q]; [reflexivity|]. intros E. exfalso.
  unfold receive in E. cbn [empty] in E.
  destruct (back (a :: q)) as [m|] eqn:Eb; [discriminate|].
  clear E. revert a Eb. induction q as [|b q IH]; intros a Eb; [discriminate|].
  apply (IH b). exact Eb.
Qed.

(** X1. [receive()] is blocked exactly on the empty queue.  On any other
    sequence, also one longer than [send] ever builds, it returns the
    element at the back, the one pushed last, and leaves the elements
    before it in place and in order. *)
Theorem receive_takes_the_back q :
  (receive q = None <-> q = [])
  /\ (forall msg q', receive q = Some (msg, q') <-> q = push_back q' msg).
Proof.
  split; [apply receive_blocks_iff_empty|].
  intros msg q'. split.
  - apply QueueFacts.receive_some_inv.
  - intros ->. apply QueueFacts.receive_push_back.
Qed.

Lemma subsequence_refl (l : list T) : subsequence l l.
Proof. induction l; constructor; assumption. Qed.

Lemma subsequence_length (l1 l2 : list T) :
  subsequence l1 l2 -> (length l1 <= length l2)%nat.
Proof. induction 1; cbn; lia. Qed.

Lemma run_delivers_subsequence cs : forall q,
  (length q <= 1)%nat -> subsequence (snd (run cs q)) (q ++ sent cs).
Proof.
  induction cs as [|c cs IH]; intros q Hq.
  - constructor.
  - rewrite QueueFacts.run_cons.
    destruct (QueueFacts.at_most_one_cases q Hq) as [->|[m ->]];
      destruct c as [msg|]; cbn [apply_call fst snd sent app receive empty back].
    + apply (IH [msg]). cbn. lia.
    + apply (IH []). cbn. lia.
    + apply subsequence_skip. apply (IH [msg]). cbn. lia.
    + cbn. apply subsequence_take. apply (IH []). cbn. lia.
Qed.

(** X2. Starting from a fresh queue, the messages that the calls of
    [receive()] return are the messages sent with some left out: they come
    in the order in which they were sent, and none is returned twice.  So
    there are never more messages returned than sent. *)
Theorem delivered_is_subsequence_of_sent cs :
  subsequence (snd (run cs create)) (sent cs)
  /\ (length (snd (run cs create)) <= length (sent cs))%nat.
Proof.
  assert (H : subsequence (snd (run cs create)) (sent cs)).
  { apply (@run_delivers_subsequence cs []). cbn. lia. }
  split; [exact H|apply subsequence_length, H].
Qed.

End Facts.
End QueueDelivery.

(** ** The cycle routine: timing, threads, and the waiter it releases *)

Section CycleTiming.
Context {P : Platform}.
Implicit Types (self : TrafficLight) (l : CycleLocals) (steps : list cycle_step).




Lemma replace_nth_length {A : Type} (k : nat) (x : A) (xs : list A) :
  length (replace_nth k x xs) = length xs.
Proof.
  revert k. induction xs as [|a xs IH]; intros k; [destruct k; reflexivity|].
  destruct k; cbn; [reflexivity|now rewrite IH].
Qed.

Lemma iteration_keeps_threads (a b : Z) self l :
  threads (actor_of (cycleThroughPhases_iteration a b self l)) = threads self.
Proof.
  destruct (iteration_cases a b self l) as [[_ ->]|[_ ->]]; reflexivity.
Qed.

Lemma actor_step_threads (e : event) self :
  length (threads (fst (actor_step e self)))
  = (length (threads self) + if is_simulate e then 1 else 0)%nat.
Proof.
  destruct e as [|rd now|k a b|]; cbn [actor_step is_simulate fst].
  - lia.
  - cbn. rewrite length_app. reflexivity.
  - destruct (nth_error (threads self) k) as [l|]; [|cbn; lia].
    pose proof (iteration_keeps_threads a b self l) as H.
    destruct (cycleThroughPhases_iteration a b self l) as [[self1 l1] out].
    unfold actor_of in H. cbn [fst snd] in *. cbn [set_threads threads].
    rewrite replace_nth_length, H. lia.
  - unfold take_message.
    destruct (MessageQueue.receive (_messageQueue self)) as [[msg q']|]; cbn; lia.
Qed.

(** X4. Every call of [simulate()] starts one more thread on the cycle
    routine, also when one is running already: nothing refuses a second
    start.  Nothing else starts or ends a thread, so after any events the
    actor has as many threads as [simulate()] was called; and [simulate()]
    itself changes neither the phase nor the queue. *)
Theorem simulate_starts_a_thread_each_time (es : list event) self (rd now : Z) :
  length (threads (fst (actor_run es self)))
  = (length (threads self) + simulate_calls es)%nat
  /\ length (threads (simulate rd now (simulate rd now self)))
     = (2 + length (threads self))%nat
  /\ _currentPhase (simulate rd now self) = _currentPhase self
  /\ _messageQueue (simulate rd now self) = _messageQueue self.
Proof.
  split; [|split; [|split; reflexivity]].
  - revert self. induction es as [|e es IH]; intros self.
    + cbn. lia.
    + rewrite actor_run_cons. cbn [fst]. rewrite IH, actor_step_threads.
      unfold simulate_calls. cbn [filter]. destruct (is_simulate e); cbn; lia.
  - cbn. rewrite !length_app. cbn. lia.
Qed.

(** X5. Right after a turn of the loop that makes a transition, a waiter
    run on the queue takes the message published; it returns if the new
    phase is [green], and if it is [red] it drops the message and blocks
    on the empty queue.  Either way the queue is empty afterwards. *)
Theorem waiter_is_released_by_green_only
    (now_check now_reset : Z) self l (fuel : nat) :
  cycleDuration l <= timeSinceLastUpdate now_check l ->
  let self' := actor_of (cycleThroughPhases_iteration now_check now_reset self l) in
  run_waiter (3 + fuel) waitForGreen (_messageQueue self')
  = (if phase_eqb (getCurrentPhase self') green then Returned else Blocked, []).
Proof.
  intros Hle. cbn zeta.
  destruct (iteration_cases now_check now_reset self l) as [[Hlt _]|[_ ->]]; [lia|].
  unfold actor_of, getCurrentPhase. cbn [fst _messageQueue _currentPhase].
  destruct (_currentPhase self); reflexivity.
Qed.

(** X6. A waiter that comes late is not let through: once the message of a
    transition to [green] has been taken, the phase read by
    [getCurrentPhase()] is [green], and still a call of [waitForGreen()]
    blocks, on the empty queue, until a later transition. *)
Theorem late_waiter_blocks_while_green
    (now_check now_reset : Z) self l (fuel : nat) :
  _currentPhase self = red ->
  cycleDuration l <= timeSinceLastUpdate now_check l ->
  let self' := actor_of (cycleThroughPhases_iteration now_check now_reset self l) in
  let self'' := fst (take_message self') in
  snd (take_message self') = [green]
  /\ getCurrentPhase self'' = green
  /\ _messageQueue self'' = []
  /\ run_waiter (1 + fuel) waitForGreen (_messageQueue self'') = (Blocked, []).
Proof.
  intros Hred Hle. cbn zeta.
  destruct (iteration_cases now_check now_reset self l) as [[Hlt _]|[_ ->]]; [lia|].
  unfold actor_of, getCurrentPhase. cbn [fst]. rewrite Hred.
  repeat split.
Qed.

Lemma alternating_suffix (pre seg : list TrafficLightPhase) :
  forall (p : TrafficLightPhase) (n : nat),
    alternating p n = pre ++ seg ->
    exists p', seg = alternating p' (length seg).
Proof.
  induction pre as [|x pre IH]; intros p n E.
  - exists p. cbn in E. rewrite <- E.
    clear E. revert p. induction n as [|n IHn]; intros p; [reflexivity|].
    cbn [alternating length]. f_equal. apply IHn.
  - destruct n as [|n]; [discriminate|].
    cbn [alternating] in E. injection E as _ E. exact (IH _ _ E).
Qed.

(** X7. From whatever point of the stream of phases the routine publishes
    a waiter starts to receive, if it misses none it returns at the first
    message or at the second: it has at most one [red] to drop. *)
Theorem waiter_returns_within_two_messages
    steps self l (pre seg : list TrafficLightPhase) :
  published_of (cycleThroughPhases_loop steps self l) = pre ++ seg ->
  (2 <= length seg)%nat ->
  exists k : nat,
    (1 <= k <= 2)%nat
    /\ is_trace waitForGreen (received (firstn k seg) (TRet tt)).
Proof.
  intros E Hlen.
  destruct (loop_publishes_alternating steps self l) as [Halt _].
  rewrite E in Halt at 1.
  destruct (alternating_suffix pre seg _ _ (eq_sym Halt)) as [p' Hseg].
  destruct seg as [|a [|b seg]]; cbn in Hlen; try lia.
  cbn [length alternating] in Hseg. injection Hseg as Ha Hb _. subst a b.
  destruct p'.
  - exists 2%nat. split; [lia|]. cbn [firstn toggled phase_eqb].
    apply (waitForGreen_skips (msgs := [red])).
    + constructor; [discriminate|constructor].
    + apply waitForGreen_returns_on_green.
  - exists 1%nat. split; [lia|]. apply waitForGreen_returns_on_green.
Qed.

End CycleTiming.


Lemma waiter_is_released_by_green_only_witness :
  let l := @cycleThroughPhases_prologue sample_platform 2024 0 in
  let self' := actor_of (cycleThroughPhases_iteration 5500000000 5500000001
                           TrafficLight_TrafficLight l) in
  run_waiter (3 + 2) waitForGreen (_messageQueue self')
  = (if phase_eqb (getCurrentPhase self') green then Returned else Blocked, []).
Proof.
  apply (@waiter_is_released_by_green_only sample_platform 5500000000 5500000001
           TrafficLight_TrafficLight
           (@cycleThroughPhases_prologue sample_platform 2024 0) 2).
  apply Z.leb_le. vm_compute. reflexivity.
Defined.

Lemma late_waiter_blocks_while_green_witness :
  let l := @cycleThroughPhases_prologue sample_platform 2024 0 in
  let self' := actor_of (cycleThroughPhases_iteration 5500000000 5500000001
                           TrafficLight_TrafficLight l) in
  let self'' := fst (take_message self') in
  snd (take_message self') = [green]
  /\ getCurrentPhase self'' = green
  /\ _messageQueue self'' = []
  /\ run_waiter (1 + 4) waitForGreen (_messageQueue self'') = (Blocked, []).
Proof.
  apply (@late_waiter_blocks_while_green sample_platform 5500000000 5500000001
           TrafficLight_TrafficLight
           (@cycleThroughPhases_prologue sample_platform 2024 0) 4).
  - reflexivity.
  - apply Z.leb_le. vm_compute. reflexivity.
Defined.

Lemma waiter_returns_within_two_messages_witness :
  exists k : nat,
    (1 <= k <= 2)%nat
    /\ is_trace waitForGreen (received (firstn k [red; green]) (TRet tt)).
Proof.
  apply (@waiter_returns_within_two_messages sample_platform
           [Turn 5500000000 5500000001; Turn 19000000000 19000000002;
            Turn 50000000000 7]
           TrafficLight_TrafficLight
           (@cycleThroughPhases_prologue sample_platform 2024 0)
           [green] [red; green]).
  - vm_compute. reflexivity.
  - cbn. lia.
Defined.

(** ** The lock, the slot and the producer, instruction by instruction *)

Module HandoffMore.
Import Handoff.
Section Facts.
Context {T : Type}.
Implicit Types (s : state T) (msgs : list T) (sched : list action).

Lemma reached_invariant msgs sched : invariant msgs (run sched (initial msgs)).
Proof. apply HandoffFacts.run_preserves, HandoffFacts.invariant_initial. Qed.

(** X8. The lock does its work.  In every state the two threads reach,
    the consumer is inside its critical section only while it holds the
    mutex and the producer is outside [send]'s, and the other way round;
    and whatever instruction changes the queue is run by the thread that
    holds the mutex. *)
Theorem queue_changes_only_under_the_lock msgs sched (a : action) :
  let s := run sched (initial msgs) in
  (rcv s = RcvLocked -> mutex s = Some Consumer /\ snd_pc s = SndIdle)
  /\ (snd_pc s <> SndIdle -> mutex s = Some Producer /\ rcv s <> RcvLocked)
  /\ (mutex s = None -> rcv s <> RcvLocked /\ snd_pc s = SndIdle)
  /\ (queue (perform a s) <> queue s ->
      (a = Consume /\ mutex s = Some Consumer)
      \/ (a = Produce /\ mutex s = Some Producer)).
Proof.
  cbn zeta. pose proof (reached_invariant msgs sched) as Hinv.
  set (s := run sched (initial msgs)) in *.
  pose proof (inv_mutex Hinv) as Hm. pose proof (inv_exclusive Hinv) as Hx.
  destruct s as [q m r p pend comp]. unfold holder in Hm. cbn in Hm, Hx.
  cbn [rcv snd_pc mutex queue].
  split; [|split; [|split]].
  - intros ->. split; [exact Hm|exact (Hx eq_refl)].
  - intros Hp. assert (Hr : r <> RcvLocked).
    { intros ->. apply Hp, Hx. reflexivity. }
    split; [|exact Hr]. destruct r, p; congruence.
  - intros ->. destruct r, p; try discriminate; split; congruence.
  - unfold perform. destruct a; cbn [step].
    + unfold consume_step. cbn [rcv mutex queue snd_pc pending completed].
      destruct r; try (intros H; now contradiction H).
      * destruct (is_free m); intros H; now contradiction H.
      * intros _. left. split; [reflexivity|exact Hm].
      * destruct (is_free m); intros H; now contradiction H.
    + unfold produce_step. cbn [rcv mutex queue snd_pc pending completed].
      destruct p as [|msg|msg|msg|msg]; try (intros H; now contradiction H).
      * destruct pend; [|destruct (is_free m)]; intros H; now contradiction H.
      * intros _. right. split; [reflexivity|].
        destruct r; try exact Hm. specialize (Hx eq_refl). discriminate.
      * intros _. right. split; [reflexivity|].
        destruct r; try exact Hm. specialize (Hx eq_refl). discriminate.
    + unfold spurious_wakeup. cbn [rcv queue].
      destruct r; intros H; now contradiction H.
Qed.

Lemma back_latest (l : list T) : MessageQueue.back (latest l) = MessageQueue.back l.
Proof. unfold latest. destruct (MessageQueue.back l); reflexivity. Qed.

(** X9. The latest message wins, also between threads: in whatever state
    the two threads are, the instruction by which [receive()] returns hands
    over the message of the last [send] that has completed, and leaves the
    queue empty; the messages of the sends before it are lost. *)
Theorem receive_returns_latest_completed msgs sched (a : action) (v : T) :
  let s := run sched (initial msgs) in
  has_returned s = false ->
  rcv (perform a s) = RcvReturned v ->
  a = Consume
  /\ MessageQueue.back (completed s) = Some v
  /\ queue (perform a s) = [].
Proof.
  cbn zeta. pose proof (reached_invariant msgs sched) as Hinv.
  set (s := run sched (initial msgs)) in *.
  intros Hret Hv.
  destruct (HandoffFacts.returns_only_by_taking a s Hv) as [E|(-> & Hl & _ & Hb)].
  { unfold has_returned in Hret. rewrite E in Hret. discriminate. }
  pose proof (inv_exclusive Hinv Hl) as Hp.
  pose proof (inv_queue Hinv Hret) as Hq.
  unfold expected_queue in Hq. rewrite Hp in Hq.
  split; [reflexivity|]. split.
  - rewrite Hq, back_latest in Hb. exact Hb.
  - unfold perform. cbn [step]. unfold consume_step. rewrite Hl, Hq.
    rewrite HandoffFacts.receive_latest.
    rewrite Hq, back_latest in Hb. rewrite Hb. reflexivity.
Qed.

Lemma slot_ok_perform (a : action) s : slot_ok s -> slot_ok (perform a s).
Proof.
  intros [Hlen Hc]. destruct s as [q m r p pend comp]. cbn in Hlen, Hc.
  unfold perform. destruct a; cbn [step].
  - unfold consume_step. cbn [rcv mutex queue snd_pc pending completed].
    destruct r; try (split; assumption).
    + destruct (is_free m); split; assumption.
    + destruct (MessageQueue.receive q) as [[msg q']|] eqn:E; [|split; assumption].
      apply QueueFacts.receive_some_inv in E. subst q.
      unfold MessageQueue.push_back in *. rewrite length_app in Hlen. cbn in Hlen.
      split; cbn.
      * lia.
      * intros m0 Hm0. specialize (Hc m0 Hm0). destruct q'; discriminate.
    + destruct (is_free m); split; assumption.
  - unfold produce_step. cbn [rcv mutex queue snd_pc pending completed].
    destruct p as [|msg|msg|msg|msg].
    + destruct pend; [split; assumption|].
      destruct (is_free m); split; cbn; try assumption; discriminate.
    + split; cbn; [lia|reflexivity].
    + rewrite (Hc msg eq_refl). split; cbn; [lia|discriminate].
    + split; cbn; [assumption|discriminate].
    + split; cbn; [assumption|discriminate].
  - unfold spurious_wakeup. cbn [rcv]. destruct r; split; assumption.
Qed.

(** X10. Between any two instructions of the two threads, under any
    scheduling, the queue holds at most one message; between the
    producer's [clear] and its [push_back] it holds none. *)
Theorem slot_holds_at_most_one_between_instructions msgs sched :
  let s := run sched (initial msgs) in
  (length (queue s) <= 1)%nat
  /\ (forall m, snd_pc s = SndCleared m -> queue s = [])
  /\ (forall m, snd_pc s = SndPushed m -> has_returned s = false -> queue s = [m]).
Proof.
  cbn zeta.
  assert (H : forall s0, slot_ok s0 -> slot_ok (run sched s0)).
  { induction sched as [|a sched IH]; intros s0 H0; [exact H0|].
    apply IH, slot_ok_perform, H0. }
  destruct (H (initial msgs)) as [H1 H2].
  { split; [cbn; lia|discriminate]. }
  split; [exact H1|]. split; [exact H2|].
  intros m Hp Hret.
  pose proof (inv_queue (reached_invariant msgs sched) Hret) as Hq.
  unfold expected_queue in Hq. rewrite Hp in Hq. exact Hq.
Qed.

Lemma produce_step_uses_one s s' :
  produce_step s = Some s' ->
  sender_left s = S (sender_left s')
  /\ (rcv s <> RcvLocked -> rcv s' <> RcvLocked).
Proof.
  destruct s as [q m r p pend comp]. unfold produce_step, sender_left.
  cbn [rcv mutex queue snd_pc pending completed].
  destruct p as [|msg|msg|msg|msg].
  - destruct pend as [|msg rest]; [discriminate|].
    destruct (is_free m); [|discriminate]. intros E. injection E as <-.
    cbn [rcv snd_pc pending length]. split; [lia|auto].
  - intros E. injection E as <-. cbn. split; [lia|auto].
  - intros E. injection E as <-. cbn. split; [lia|auto].
  - intros E. injection E as <-. cbn [rcv snd_pc pending]. split; [lia|].
    destruct r; cbn; congruence.
  - intros E. injection E as <-. cbn. split; [lia|auto].
Qed.

Lemma producer_enabled msgs s :
  invariant msgs s -> rcv s <> RcvLocked -> sender_left s <> 0%nat ->
  produce_step s <> None.
Proof.
  intros Hinv Hr Hleft. pose proof (inv_mutex Hinv) as Hm.
  destruct s as [q m r p pend comp]. unfold produce_step, sender_left, holder in *.
  cbn in *. destruct p; try discriminate.
  destruct pend; [cbn in Hleft; lia|].
  assert (m = None) as -> by (destruct r; congruence). discriminate.
Qed.

Lemma producer_runs_through msgs : forall (n : nat) s,
  invariant msgs s -> rcv s <> RcvLocked -> sender_left s = n ->
  snd_pc (run (repeat Produce n) s) = SndIdle
  /\ pending (run (repeat Produce n) s) = []
  /\ completed (run (repeat Produce n) s) = msgs.
Proof.
  induction n as [|n IH]; intros s Hinv Hr Hn.
  - cbn [repeat run fold_left]. pose proof (inv_script Hinv) as Hs.
    destruct s as [q m r p pend comp]. unfold sender_left in Hn. cbn in *.
    destruct p; try lia. destruct pend; [|cbn in Hn; lia].
    cbn in Hs. rewrite app_nil_r in Hs. auto.
  - cbn [repeat]. rewrite HandoffFacts.run_next.
    destruct (produce_step s) as [s'|] eqn:E.
    + destruct (produce_step_uses_one s E) as [Hl Hr'].
      unfold perform. cbn [step]. rewrite E. apply IH.
      * eapply HandoffFacts.produce_preserves; eassumption.
      * auto.
      * lia.
    + exfalso. apply (producer_enabled Hinv Hr); [lia|exact E].
Qed.

(** X11. [send] never waits for the consumer to take anything.  Inside
    [send] the producer can always run its next instruction; about to enter
    it, it is held up only while the consumer is inside its critical
    section, which the consumer's next instruction leaves.  So from
    whatever state, whether or not [receive()] ever returns, the producer
    can run through all its sends: every message ends up sent. *)
Theorem send_never_waits_for_the_consumer msgs sched :
  let s := run sched (initial msgs) in
  (snd_pc s <> SndIdle -> produce_step s <> None)
  /\ (pending s <> [] -> produce_step s = None ->
      rcv s = RcvLocked /\ produce_step (perform Consume s) <> None)
  /\ (exists more,
        (length more <= 1 + sender_left s)%nat
        /\ Forall (fun a => a <> Spurious) more
        /\ snd_pc (run (sched ++ more) (initial msgs)) = SndIdle
        /\ pending (run (sched ++ more) (initial msgs)) = []
        /\ completed (run (sched ++ more) (initial msgs)) = msgs).
Proof.
  cbn zeta. pose proof (reached_invariant msgs sched) as Hinv.
  set (s := run sched (initial msgs)) in *.
  assert (Hafter : rcv s = RcvLocked ->
            rcv (perform Consume s) <> RcvLocked
            /\ sender_left (perform Consume s) = sender_left s
            /\ mutex (perform Consume s) = None
            /\ snd_pc (perform Consume s) = snd_pc s
            /\ pending (perform Consume s) = pending s).
  { intros Hl. unfold perform. cbn [step]. unfold consume_step. rewrite Hl.
    destruct (MessageQueue.receive (queue s)) as [[msg q']|];
      unfold sender_left; cbn; repeat split; discriminate. }
  split; [|split].
  - intros Hp. destruct s as [q m r p pend comp]. unfold produce_step. cbn in *.
    destruct p; try discriminate. contradiction.
  - intros Hpend Hnone.
    assert (Hl : rcv s = RcvLocked).
    { pose proof (inv_mutex Hinv) as Hm.
      destruct s as [q m r p pend comp]. unfold produce_step, holder in *. cbn in *.
      destruct p; try discriminate. destruct pend; [contradiction|].
      destruct m; [|discriminate]. destruct r; try discriminate. reflexivity. }
    split; [exact Hl|].
    destruct (Hafter Hl) as (_ & _ & Hm & Hp & Hpe).
    pose proof (inv_exclusive Hinv Hl) as Hidle.
    unfold produce_step. rewrite Hp, Hidle, Hpe, Hm.
    destruct (pending s); [contradiction|discriminate].
  - assert (Hcases : rcv s = RcvLocked \/ rcv s <> RcvLocked)
      by (destruct (rcv s); auto; right; discriminate).
    destruct Hcases as [Hl|Hl].
    + destruct (Hafter Hl) as (Hr & Hleft & _).
      destruct (producer_runs_through
                  (HandoffFacts.perform_preserves Consume Hinv) Hr Hleft)
        as (H1 & H2 & H3).
      exists (Consume :: repeat Produce (sender_left s)).
      rewrite HandoffFacts.run_append. fold s. rewrite HandoffFacts.run_next.
      repeat split; try assumption.
      * cbn. rewrite repeat_length. lia.
      * constructor; [discriminate|].
        apply Forall_forall. intros x Hx. apply repeat_spec in Hx. subst x. discriminate.
    + destruct (producer_runs_through Hinv Hl eq_refl) as (H1 & H2 & H3).
      exists (repeat Produce (sender_left s)).
      rewrite HandoffFacts.run_append. fold s.
      repeat split; try assumption.
      * rewrite repeat_length. lia.
      * apply Forall_forall. intros x Hx. apply repeat_spec in Hx. subst x. discriminate.
Qed.

End Facts.

Lemma receive_returns_latest_completed_witness :
  let s := run [Produce; Produce; Produce; Produce; Produce;
                Produce; Produce; Produce; Produce; Produce; Consume]
               (initial [green; red]) in
  Consume = Consume
  /\ MessageQueue.back (completed s) = Some red
  /\ queue (perform Consume s) = [].
Proof.
  apply (@receive_returns_latest_completed TrafficLightPhase [green; red]
           [Produce; Produce; Produce; Produce; Produce;
            Produce; Produce; Produce; Produce; Produce; Consume]
           Consume red).
  - reflexivity.
  - reflexivity.
Defined.

End HandoffMore.
